(** * Tendermint core of evrynet-node: a shallow embedding

    The development follows the Go sources:
    - [consensus/tendermint/core]: the round state machine ([enterNewRound],
      [enterPropose], [enterPrevote], [enterPrevoteWait], [enterPrecommit]),
      the message handlers ([handlePropose], [handlePrevote],
      [handlePrecommit], [handleMsg]) and the timeout dispatcher
      ([handleTimeout]);
    - [consensus/tendermint/core/messages.go]: the [message] wire codec;
    - [consensus/tendermint/backend/staking]: the validator-set provider
      [GetValSet].

    Go's mutable [core] object is threaded explicitly; a handler either
    finishes with a new [core], returns an [error] or panics.  Calls to the
    collaborators of the core (timer, transport) are recorded, in order, in
    the [outbox] of the [core]. *)

From Stdlib Require Import ZArith NArith List Bool Lia.
From Stdlib Require Import Strings.Byte.
From stdpp Require Import base gmap list strings.

Local Open Scope Z_scope.

(** ** Bytes, addresses, hashes *)

#[global] Instance byte_eq_decision : EqDecision byte := Byte.byte_eq_dec.

(** [common.Address] is a [[20]byte], [common.Hash] a [[32]byte]. *)
Definition Address := list byte.
Definition Hash := list byte.

Definition AddressLength : nat := 20.
Definition HashLength : nat := 32.

(** [emptyBlockHash = common.Hash{}]: thirty-two zero bytes. *)
Definition emptyBlockHash : Hash := repeat x00 HashLength.

(** The handlers compare hashes through [Hex()]; the hexadecimal rendering of
    a fixed-size array is injective, so the comparison is equality. *)
Definition hash_eqb (h1 h2 : Hash) : bool := bool_decide (h1 = h2).
Definition addr_eqb (a1 a2 : Address) : bool := bool_decide (a1 = a2).

(** ** Errors and results *)

Inductive error : Type :=
| ErrInvalidProposalPOLRound
| ErrInvalidProposalSignature
| ErrVoteHeightMismatch
| ErrVoteInvalidValidatorAddress
| ErrEmptyBlockProposal
| ErrUnknownBlock
| ErrEmptyValSet
| ErrEquivocation
| ErrUnknownMsgCode (code : N)
| ErrExternal (what : string).

Inductive result (A : Type) : Type :=
| Ok (a : A)
| Err (e : error)
| Panic (why : string).

Arguments Ok {A} a.
Arguments Err {A} e.
Arguments Panic {A} why.

Definition rbind {A B : Type} (m : result A) (k : A -> result B) : result B :=
  match m with
  | Ok a => k a
  | Err e => Err e
  | Panic w => Panic w
  end.

#[global] Instance result_bind : MBind result := fun _ _ k m => rbind m k.
#[global] Instance result_ret : MRet result := fun _ a => Ok a.
#[global] Instance result_fmap : FMap result := fun _ _ f m => rbind m (fun a => Ok (f a)).

Definition nil_deref : string := "invalid memory address or nil pointer dereference".

(** ** Blocks, proposals, votes, messages *)

Record Block : Type := mkBlock {
  Number : Z;
  BHash : Hash
}.

Record Proposal : Type := mkProposal {
  PBlock : option Block;
  PRound : Z;
  POLRound : Z
}.

Record Vote : Type := mkVote {
  VBlockNumber : Z;
  VRound : Z;
  VBlockHash : option Hash
}.

Definition msgPropose : N := 0%N.
Definition msgPrevote : N := 1%N.
Definition msgPrecommit : N := 2%N.

Record message : Type := mkMessage {
  Code : N;
  Msg : list byte;
  MAddress : Address;
  Signature : list byte;
  CommittedSeal : list byte
}.

(** ** Steps *)

Inductive RoundStepType : Type :=
| RoundStepNewHeight
| RoundStepNewRound
| RoundStepPropose
| RoundStepPrevote
| RoundStepPrevoteWait
| RoundStepPrecommit
| RoundStepPrecommitWait
| RoundStepCommit.

Definition stepCode (s : RoundStepType) : Z :=
  match s with
  | RoundStepNewHeight => 1
  | RoundStepNewRound => 2
  | RoundStepPropose => 3
  | RoundStepPrevote => 4
  | RoundStepPrevoteWait => 5
  | RoundStepPrecommit => 6
  | RoundStepPrecommitWait => 7
  | RoundStepCommit => 8
  end.

Definition step_eqb (a b : RoundStepType) : bool := stepCode a =? stepCode b.
Definition step_ltb (a b : RoundStepType) : bool := stepCode a <? stepCode b.
Definition step_leb (a b : RoundStepType) : bool := stepCode a <=? stepCode b.

(** ** Validator set *)

(** [tendermint.ProposerPolicy]; the sources name the round-robin policy. *)
Inductive ProposerPolicy : Type := RoundRobin.

Record ValidatorSet : Type := mkValSet {
  validators : list Address;
  policy : ProposerPolicy;
  height : Z;
  proposer : option Address
}.

(** [validator.NewSet(addrs, policy, blockNumber)] builds the default set,
    whose constructor is outside the sources.  Modelled from the spec: the
    round-0 proposer of a fresh set is element 0 of the ordered set. *)
Definition NewSet (addrs : list Address) (p : ProposerPolicy) (bn : Z) : ValidatorSet :=
  {| validators := addrs; policy := p; height := bn; proposer := head addrs |}.

Fixpoint index_of (a : Address) (l : list Address) : option nat :=
  match l with
  | [] => None
  | x :: l' => if addr_eqb x a then Some 0%nat else S <$> index_of a l'
  end.

(** [GetByAddress] answers [-1] for an address that is not in the set. *)
Definition GetByAddress (vs : ValidatorSet) (a : Address) : Z :=
  match index_of a (validators vs) with
  | Some i => Z.of_nat i
  | None => -1
  end.

Definition Size (vs : ValidatorSet) : Z := Z.of_nat (length (validators vs)).

(** Modelled from the spec: the validator set's [F] and quorum, absent from
    the sources: f = floor((n-1)/3), Q = 2f+1. *)
Definition F (vs : ValidatorSet) : Z := (Size vs - 1) / 3.
Definition Quorum (vs : ValidatorSet) : Z := 2 * F vs + 1.

(** [GetProposer] hands out the cached proposer; its [Address()] is read by
    the callers, which dereferences a nil validator when there is none. *)
Definition GetProposerAddress (vs : ValidatorSet) : result Address :=
  match proposer vs with
  | Some a => Ok a
  | None => Panic nil_deref
  end.

Definition IsProposer (vs : ValidatorSet) (a : Address) : bool :=
  match proposer vs with
  | Some p => addr_eqb p a
  | None => false
  end.

(** Modelled from the spec: [CalcProposer(lastProposer, round)] of the
    default validator set, absent from the sources: deterministic
    round-robin, next proposer index =
    (index_of(prev_proposer) + round) mod |set|.  The call has no result;
    on an empty set or an unknown address the set is left as it is. *)
Definition CalcProposer (vs : ValidatorSet) (lastProposer : Address) (round : Z) : ValidatorSet :=
  match index_of lastProposer (validators vs) with
  | None => vs
  | Some i =>
      let pick := (Z.of_nat i + round) mod Size vs in
      {| validators := validators vs; policy := policy vs; height := height vs;
         proposer := validators vs !! Z.to_nat pick |}
  end.

(** Index of the current proposer in the ordered set. *)
Definition proposerIndex (vs : ValidatorSet) : option nat :=
  match proposer vs with
  | Some a => index_of a (validators vs)
  | None => None
  end.

(** ** Vote sets *)

(** Modelled from the spec: the per-round vote set ([messageSet] with its
    counting methods is absent from the sources).  One entry per voter, in
    order of admission; voting is unweighted. *)
Definition VoteSet := list (Address * Hash).

Definition countFor (h : Hash) (vs : VoteSet) : Z :=
  Z.of_nat (length (filter (fun e => e.2 = h) vs)).

(** [two_thirds_majority]: the hash [h] with [count(h) >= Q], if any. *)
Definition TwoThirdMajority (q : Z) (vs : VoteSet) : option Hash :=
  head (filter (fun h => q <= countFor h vs) (map snd vs)).

(** [has_two_thirds_any]: total distinct voters [>= Q]. *)
Definition HasTwoThirdAny (q : Z) (vs : VoteSet) : bool :=
  q <=? Z.of_nat (length vs).

Definition voteOf (a : Address) (vs : VoteSet) : option Hash :=
  snd <$> head (filter (fun e => e.1 = a) vs).

(** Admitting a vote of a sender: rejects a sender outside the validator set, rejects
    a second, different vote of a sender (equivocation), answers
    [added = false] on an identical duplicate, and records the vote
    otherwise. *)
Definition recordVote (valset : ValidatorSet) (sender : Address) (h : Hash) (vs : VoteSet)
  : result (bool * VoteSet) :=
  if GetByAddress valset sender =? -1 then Err ErrVoteInvalidValidatorAddress
  else match voteOf sender vs with
       | Some h' => if hash_eqb h' h then Ok (false, vs) else Err ErrEquivocation
       | None => Ok (true, vs ++ [(sender, h)])
       end.

(** ** Round state *)

(** The [roundState] type is declared outside the sources at hand; its fields
    are those read and written by the state machine. *)
Record roundState : Type := mkRoundState {
  blockNumber : Z;
  round : Z;
  step : RoundStepType;
  proposalReceived : option Proposal;
  lockedRound : Z;
  lockedBlock : option Block;
  validRound : Z;
  validBlock : option Block;
  block : option Block;
  prevotes : gmap Z VoteSet;
  precommits : gmap Z VoteSet
}.

(** Modelled from the spec: [update_round_step(r, s)] enforces that either
    [r > current round] or [r == current round] and [s > current step];
    a request that does neither leaves the state as it is. *)
Definition UpdateRoundStep (r : Z) (s : RoundStepType) (st : roundState) : roundState :=
  if (round st <? r) || ((round st =? r) && step_ltb (step st) s) then
    {| blockNumber := blockNumber st; round := r; step := s;
       proposalReceived := proposalReceived st;
       lockedRound := lockedRound st; lockedBlock := lockedBlock st;
       validRound := validRound st; validBlock := validBlock st;
       block := block st; prevotes := prevotes st; precommits := precommits st |}
  else st.

(** Modelled from the spec: [set_valid_round_and_block]. *)
Definition SetValidRoundAndBlock (r : Z) (b : option Block) (st : roundState) : roundState :=
  {| blockNumber := blockNumber st; round := round st; step := step st;
     proposalReceived := proposalReceived st;
     lockedRound := lockedRound st; lockedBlock := lockedBlock st;
     validRound := r; validBlock := b;
     block := block st; prevotes := prevotes st; precommits := precommits st |}.

(** Modelled from the spec: [set_proposal_received]; that the first proposal
    wins is enforced by [handlePropose], which looks before it stores. *)
Definition SetProposalReceived (p : option Proposal) (st : roundState) : roundState :=
  {| blockNumber := blockNumber st; round := round st; step := step st;
     proposalReceived := p;
     lockedRound := lockedRound st; lockedBlock := lockedBlock st;
     validRound := validRound st; validBlock := validBlock st;
     block := block st; prevotes := prevotes st; precommits := precommits st |}.

(** Modelled from the spec: Unlock clears [locked_round] to [-1] and
    [locked_block] to nil. *)
Definition Unlock (st : roundState) : roundState :=
  {| blockNumber := blockNumber st; round := round st; step := step st;
     proposalReceived := proposalReceived st;
     lockedRound := -1; lockedBlock := None;
     validRound := validRound st; validBlock := validBlock st;
     block := block st; prevotes := prevotes st; precommits := precommits st |}.

Definition setPrevotes (m : gmap Z VoteSet) (st : roundState) : roundState :=
  {| blockNumber := blockNumber st; round := round st; step := step st;
     proposalReceived := proposalReceived st;
     lockedRound := lockedRound st; lockedBlock := lockedBlock st;
     validRound := validRound st; validBlock := validBlock st;
     block := block st; prevotes := m; precommits := precommits st |}.

Definition setPrecommits (m : gmap Z VoteSet) (st : roundState) : roundState :=
  {| blockNumber := blockNumber st; round := round st; step := step st;
     proposalReceived := proposalReceived st;
     lockedRound := lockedRound st; lockedBlock := lockedBlock st;
     validRound := validRound st; validBlock := validBlock st;
     block := block st; prevotes := prevotes st; precommits := m |}.

Definition GetPrevotesByRound (st : roundState) (r : Z) : option VoteSet := prevotes st !! r.
Definition GetPrecommitsByRound (st : roundState) (r : Z) : option VoteSet := precommits st !! r.

(** Modelled from the spec: [addPrevote] and [addPrecommit] admit the vote
    into the vote set of its round, creating the set on first use. *)
Definition addPrevote (sender : Address) (r : Z) (h : Hash) (valset : ValidatorSet)
    (st : roundState) : result (bool * roundState) :=
  ad ← recordVote valset sender h (default [] (prevotes st !! r));
  let '(added, vs) := (ad : bool * VoteSet) in
  Ok (added, if added then setPrevotes (<[r := vs]> (prevotes st)) st else st).

Definition addPrecommit (sender : Address) (r : Z) (h : Hash) (valset : ValidatorSet)
    (st : roundState) : result (bool * roundState) :=
  ad ← recordVote valset sender h (default [] (precommits st !! r));
  let '(added, vs) := (ad : bool * VoteSet) in
  Ok (added, if added then setPrecommits (<[r := vs]> (precommits st)) st else st).

(** Modelled from the spec: the proposal is locally complete when the
    proposal is there together with any required POL votes. *)
Definition IsProposalComplete (q : Z) (st : roundState) : bool :=
  match proposalReceived st with
  | None => false
  | Some p =>
      if POLRound p <? 0 then true
      else match prevotes st !! POLRound p with
           | None => false
           | Some vs => bool_decide (is_Some (TwoThirdMajority q vs))
           end
  end.

(** ** Timeouts *)

Record timeoutInfo : Type := mkTimeoutInfo {
  Duration : Z;
  TBlockNumber : Z;
  TRound : Z;
  TStep : RoundStepType
}.

(** Modelled from the spec: timeout durations, in milliseconds:
    [T0 + r * dT] for each of propose, prevote and precommit. *)
Record Config : Type := mkConfig {
  TimeoutPropose : Z;
  TimeoutProposeDelta : Z;
  TimeoutPrevote : Z;
  TimeoutPrevoteDelta : Z;
  TimeoutPrecommit : Z;
  TimeoutPrecommitDelta : Z
}.

Definition DefaultConfig : Config :=
  {| TimeoutPropose := 3000; TimeoutProposeDelta := 500;
     TimeoutPrevote := 1000; TimeoutPrevoteDelta := 500;
     TimeoutPrecommit := 1000; TimeoutPrecommitDelta := 500 |}.

Definition ProposeTimeout (cfg : Config) (r : Z) : Z := TimeoutPropose cfg + r * TimeoutProposeDelta cfg.
Definition PrevoteTimeout (cfg : Config) (r : Z) : Z := TimeoutPrevote cfg + r * TimeoutPrevoteDelta cfg.
Definition PrecommitTimeout (cfg : Config) (r : Z) : Z := TimeoutPrecommit cfg + r * TimeoutPrecommitDelta cfg.

(** ** The core and its calls to the outside *)

(** A call to a collaborator of the core: the timer, the proposal and vote
    senders (which sign and broadcast), the gossip transport, the commit
    channel. *)
Inductive action : Type :=
| ScheduleTimeout (ti : timeoutInfo)
| SendPropose (p : Proposal)
| SendVote (voteType : N) (b : option Block) (r : Z)
| Gossip (m : message)
| CommitBlock (h : Hash).

Record core : Type := mkCore {
  state : roundState;
  valSet : ValidatorSet;
  address : Address;
  config : Config;
  outbox : list action
}.

Definition withState (st : roundState) (c : core) : core :=
  {| state := st; valSet := valSet c; address := address c; config := config c;
     outbox := outbox c |}.

Definition withValSet (vs : ValidatorSet) (c : core) : core :=
  {| state := state c; valSet := vs; address := address c; config := config c;
     outbox := outbox c |}.

Definition emit (a : action) (c : core) : core :=
  {| state := state c; valSet := valSet c; address := address c; config := config c;
     outbox := outbox c ++ [a] |}.

(** Modelled from the spec: the hash a vote carries for a block pointer;
    a nil-vote uses [H_nil], never absence. *)
Definition voteHash (b : option Block) : Hash :=
  match b with
  | Some blk => BHash blk
  | None => emptyBlockHash
  end.

(** The prevotes and precommits this node has asked to broadcast. *)
Definition sentVotes (voteType : N) (acts : list action) : list (Hash * Z) :=
  omap (fun a => match a with
                 | SendVote t b r => if (t =? voteType)%N then Some (voteHash b, r) else None
                 | _ => None
                 end) acts.

(** ** The state machine ([core/core.go]) *)

(** int64 arithmetic of Go wraps around. *)
Definition wrap64 (z : Z) : Z := (z + 2 ^ 63) mod 2 ^ 64 - 2 ^ 63.
Definition add64 (a b : Z) : Z := wrap64 (a + b).

(** [defaultDecideProposal]: the valid block when there is one, else the
    node's own block. *)
Definition defaultDecideProposal (r : Z) (c : core) : Proposal :=
  let st := state c in
  if negb (validRound st =? -1) then
    {| PBlock := validBlock st; PRound := r; POLRound := validRound st |}
  else
    {| PBlock := block st; PRound := r; POLRound := -1 |}.

(** [defaultDoPrevote]: the default selection of the block to prevote. *)
Definition defaultDoPrevote (r : Z) (c : core) : core :=
  let st := state c in
  if negb (lockedRound st =? -1) then
    emit (SendVote msgPrevote (lockedBlock st) r) c
  else match proposalReceived st with
       | None => emit (SendVote msgPrevote None r) c
       | Some p => emit (SendVote msgPrevote (PBlock p) r) c
       end.

Definition enterPrevote (bn r : Z) (c : core) : core :=
  let st := state c in
  let sRound := round st in
  let sStep := step st in
  if negb (blockNumber st =? bn) || (r <? sRound)
     || ((sRound =? r) && step_leb RoundStepPrevote sStep)
  then c
  else
    let c1 := defaultDoPrevote r c in
    (* deferred *)
    withState (UpdateRoundStep r RoundStepPrevote (state c1)) c1.

Definition enterPropose (bn r : Z) (c : core) : core :=
  let st := state c in
  let sRound := round st in
  let sStep := step st in
  if negb (blockNumber st =? bn) || (r <? sRound)
     || ((sRound =? r) && step_leb RoundStepPropose sStep)
  then c
  else
    let c1 := emit (ScheduleTimeout {| Duration := ProposeTimeout (config c) r;
                                       TBlockNumber := bn; TRound := r;
                                       TStep := RoundStepPropose |}) c in
    let c2 :=
      if GetByAddress (valSet c1) (address c1) =? -1 then c1
      else if IsProposer (valSet c1) (address c1)
           then emit (SendPropose (defaultDecideProposal r c1)) c1
           else c1 in
    (* deferred *)
    let c3 := withState (UpdateRoundStep r RoundStepPropose (state c2)) c2 in
    if IsProposalComplete (Quorum (valSet c3)) (state c3)
    then enterPrevote bn sRound c3
    else c3.

Definition enterNewRound (bn r : Z) (c : core) : result core :=
  let st := state c in
  let sRound := round st in
  let sStep := step st in
  if negb (blockNumber st =? bn) || (r <? sRound)
     || ((sRound =? r) && negb (step_eqb sStep RoundStepNewHeight))
  then Ok c
  else
    c1 ← (if sRound <? r then
            currentProposer ← GetProposerAddress (valSet c);
            Ok (withValSet (CalcProposer (valSet c) currentProposer r) c)
          else Ok c);
    let c2 := withState (UpdateRoundStep r RoundStepNewRound (state c1)) c1 in
    let c3 := if r =? 0
              then withState (SetValidRoundAndBlock (-1) None (state c2)) c2
              else c2 in
    Ok (enterPropose bn r c3).

Definition enterPrevoteWait (bn r : Z) (c : core) : result core :=
  let st := state c in
  let sRound := round st in
  let sStep := step st in
  if negb (blockNumber st =? bn) || (r <? sRound)
     || ((sRound =? r) && step_leb RoundStepPrevoteWait sStep)
  then Ok c
  else
    match GetPrevotesByRound st r with
    | None => Panic nil_deref   (* [prevotes.HasTwoThirdAny()] on a nil set *)
    | Some _ =>
        let c1 := emit (ScheduleTimeout {| Duration := PrevoteTimeout (config c) r;
                                           TBlockNumber := bn; TRound := r;
                                           TStep := RoundStepPrevoteWait |}) c in
        (* deferred *)
        Ok (withState (UpdateRoundStep r RoundStepPrevoteWait (state c1)) c1)
    end.

(** [enterPrecommit] has an empty body in the sources
    ([//TODO: implement this]). *)
Definition enterPrecommit (bn r : Z) (c : core) : core := c.

(** Modelled from the spec: [enterPrecommitWait], absent from the sources.
    Guard: [precommits[r]] exists and has +2/3-any; arm the precommit
    timeout; set step = PrecommitWait. *)
Definition enterPrecommitWait (bn r : Z) (c : core) : core :=
  let st := state c in
  if negb (blockNumber st =? bn) || (r <? round st)
     || ((round st =? r) && step_leb RoundStepPrecommitWait (step st))
  then c
  else
    match GetPrecommitsByRound st r with
    | None => c
    | Some vs =>
        if HasTwoThirdAny (Quorum (valSet c)) vs then
          let c1 := emit (ScheduleTimeout {| Duration := PrecommitTimeout (config c) r;
                                             TBlockNumber := bn; TRound := r;
                                             TStep := RoundStepPrecommitWait |}) c in
          withState (UpdateRoundStep r RoundStepPrecommitWait (state c1)) c1
        else c
    end.

(** Modelled from the spec: [enterCommit], absent from the sources.  Entered
    when [precommits[r]] has a two-thirds majority on a hash other than
    [H_nil]: hand the block with that hash to the backend, set
    step = Commit. *)
Definition enterCommit (bn r : Z) (c : core) : core :=
  let st := state c in
  if negb (blockNumber st =? bn) || (r <? round st)
     || ((round st =? r) && step_leb RoundStepCommit (step st))
  then c
  else
    match GetPrecommitsByRound st r with
    | None => c
    | Some vs =>
        match TwoThirdMajority (Quorum (valSet c)) vs with
        | Some h =>
            if hash_eqb h emptyBlockHash then c
            else
              let c1 := emit (CommitBlock h) c in
              withState (UpdateRoundStep r RoundStepCommit (state c1)) c1
        | None => c
        end
    end.

(** ** The timeout dispatcher ([handleTimeout]) *)

Definition staleb (ti : timeoutInfo) (st : roundState) : bool :=
  negb (TBlockNumber ti =? blockNumber st)
  || (TRound ti <? round st)
  || ((TRound ti =? round st) && step_ltb (TStep ti) (step st)).

Definition handleTimeout (ti : timeoutInfo) (c : core) : result core :=
  if staleb ti (state c) then Ok c
  else
    match TStep ti with
    | RoundStepNewHeight => enterNewRound (TBlockNumber ti) 0 c
    | RoundStepNewRound => Ok (enterPropose (TBlockNumber ti) 0 c)
    | RoundStepPropose => Ok (enterPrevote (TBlockNumber ti) (TRound ti) c)
    | RoundStepPrevoteWait => Ok (enterPrecommit (TBlockNumber ti) (TRound ti) c)
    | RoundStepPrecommitWait =>
        let c1 := enterPrecommit (TBlockNumber ti) (TRound ti) c in
        enterNewRound (TBlockNumber ti) (add64 (TRound ti) 1) c1
    | _ => Panic "Invalid timeout step"
    end.

(** ** The wire codec ([rlp] and [core/messages.go]) *)

Module RLP.

Local Open Scope N_scope.

(** Modelled from the spec: the [rlp] package is absent from the sources.
    The canonical binary encoding of a message is a length-prefixed
    structural encoding of the 5-tuple; [EncodeRLP] names it as the Ethereum
    RLP format, which is what is written out here: the encoder ([putint],
    string and list headers, [writeUint]) and the decoder of a stream
    ([readKind], [Bytes], [Uint64], byte arrays, [List]) with its checks for
    canonical sizes and integers. *)

(** Go's conversion [byte(x)] keeps the low eight bits. *)
Definition byteOf (n : N) : byte := default x00 (Byte.of_N (n mod 256)).

(** [putint]: big-endian, without leading zero bytes, eight bytes at most. *)
Fixpoint putint_upto (width : nat) (i : N) : list byte :=
  match width with
  | O => []
  | S w => if i <? 256 then [byteOf i] else putint_upto w (i / 256) ++ [byteOf i]
  end.

Definition putint (i : N) : list byte := putint_upto 8 i.

Definition bigEndian (bs : list byte) : N :=
  fold_left (fun acc b => acc * 256 + Byte.to_N b) bs 0.

Definition lenN {A : Type} (l : list A) : N := N.of_nat (length l).

Definition encodeStringHeader (size : N) : list byte :=
  if size <? 56 then [byteOf (0x80 + size)]
  else let s := putint size in byteOf (0xB7 + lenN s) :: s.

Definition encodeString (b : list byte) : list byte :=
  match b with
  | [x] => if Byte.to_N x <=? 0x7F then [x] else encodeStringHeader 1 ++ b
  | _ => encodeStringHeader (lenN b) ++ b
  end.

Definition writeUint (i : N) : list byte :=
  if i =? 0 then [byteOf 0x80]
  else if i <? 128 then [byteOf i]
  else let s := putint i in byteOf (0x80 + lenN s) :: s.

Definition listHeader (size : N) : list byte :=
  if size <? 56 then [byteOf (0xC0 + size)]
  else let s := putint size in byteOf (0xF7 + lenN s) :: s.

Definition encodeList (items : list (list byte)) : list byte :=
  let payload := concat items in
  listHeader (lenN payload) ++ payload.

(** The decoder. *)

Inductive Kind : Type :=
| KByte (b : byte)
| KString (size : N)
| KList (size : N).

Definition ErrCanonSize : error := ErrExternal "rlp: non-canonical size information".
Definition ErrCanonInt : error := ErrExternal "rlp: non-canonical integer format".
Definition ErrExpectedString : error := ErrExternal "rlp: expected String or Byte".
Definition ErrExpectedList : error := ErrExternal "rlp: expected List".
Definition ErrUintOverflow : error := ErrExternal "rlp: uint overflow".
Definition ErrEOF : error := ErrExternal "unexpected EOF".
Definition ErrTooLong : error := ErrExternal "rlp: input string too long".
Definition ErrTooShort : error := ErrExternal "rlp: input string too short".
Definition ErrTooManyElems : error := ErrExternal "rlp: input list has too many elements".

Definition readFull (size : N) (s : list byte) : result (list byte * list byte) :=
  if lenN s <? size then Err ErrEOF
  else Ok (take (N.to_nat size) s, drop (N.to_nat size) s).

Definition readUint (size : N) (s : list byte) : result (N * list byte) :=
  if size =? 0 then Ok (0, s)
  else
    rbind (readFull size s) (fun '(bs, rest) =>
      if (1 <? size) && (Byte.to_N (hd x00 bs) =? 0) then Err ErrCanonSize
      else Ok (bigEndian bs, rest)).

Definition readKind (s : list byte) : result (Kind * list byte) :=
  match s with
  | [] => Err ErrEOF
  | b :: rest =>
      let n := Byte.to_N b in
      if n <? 0x80 then Ok (KByte b, rest)
      else if n <? 0xB8 then Ok (KString (n - 0x80), rest)
      else if n <? 0xC0 then
        rbind (readUint (n - 0xB7) rest) (fun '(size, rest') =>
          if size <? 56 then Err ErrCanonSize else Ok (KString size, rest'))
      else if n <? 0xF8 then Ok (KList (n - 0xC0), rest)
      else
        rbind (readUint (n - 0xF7) rest) (fun '(size, rest') =>
          if size <? 56 then Err ErrCanonSize else Ok (KList size, rest'))
  end.

Definition Bytes (s : list byte) : result (list byte * list byte) :=
  rbind (readKind s) (fun '(kind, rest) =>
    match kind with
    | KByte b => Ok ([b], rest)
    | KString size =>
        rbind (readFull size rest) (fun '(b, rest') =>
          if (size =? 1) && (Byte.to_N (hd x00 b) <? 128) then Err ErrCanonSize
          else Ok (b, rest'))
    | KList _ => Err ErrExpectedString
    end).

Definition Uint64 (s : list byte) : result (N * list byte) :=
  rbind (readKind s) (fun '(kind, rest) =>
    match kind with
    | KByte b => if Byte.to_N b =? 0 then Err ErrCanonInt else Ok (Byte.to_N b, rest)
    | KString size =>
        if 8 <? size then Err ErrUintOverflow
        else
          match readUint size rest with
          | Ok (v, rest') =>
              if (0 <? size) && (v <? 128) then Err ErrCanonSize else Ok (v, rest')
          | Err e => Err ErrCanonInt
          | Panic w => Panic w
          end
    | KList _ => Err ErrExpectedString
    end).

Definition ByteArray (vlen : N) (s : list byte) : result (list byte * list byte) :=
  rbind (readKind s) (fun '(kind, rest) =>
    match kind with
    | KByte b =>
        if vlen =? 0 then Err ErrTooLong
        else if 1 <? vlen then Err ErrTooShort
        else Ok ([b], rest)
    | KString size =>
        if vlen <? size then Err ErrTooLong
        else if size <? vlen then Err ErrTooShort
        else
          rbind (readFull size rest) (fun '(b, rest') =>
            if (size =? 1) && (Byte.to_N (hd x00 b) <? 128) then Err ErrCanonSize
            else Ok (b, rest'))
    | KList _ => Err ErrExpectedString
    end).

(** [List] enters a list: its content, and what follows the list. *)
Definition List (s : list byte) : result (list byte * list byte) :=
  rbind (readKind s) (fun '(kind, rest) =>
    match kind with
    | KList size => readFull size rest
    | _ => Err ErrExpectedList
    end).

End RLP.

(** [EncodeRLP]: the list of the five fields. *)
Definition EncodeRLP (m : message) : list byte :=
  RLP.encodeList [ RLP.writeUint (Code m);
                   RLP.encodeString (Msg m);
                   RLP.encodeString (MAddress m);
                   RLP.encodeString (Signature m);
                   RLP.encodeString (CommittedSeal m) ].

(** [DecodeRLP]: decode the five fields of the list in order and require the
    end of the list; answers the message and the rest of the stream. *)
Definition DecodeRLP (s : list byte) : result (message * list byte) :=
  rbind (RLP.List s) (fun '(content, after) =>
  rbind (RLP.Uint64 content) (fun '(code, s1) =>
  rbind (RLP.Bytes s1) (fun '(msg, s2) =>
  rbind (RLP.ByteArray (N.of_nat AddressLength) s2) (fun '(addr, s3) =>
  rbind (RLP.Bytes s3) (fun '(sig, s4) =>
  rbind (RLP.Bytes s4) (fun '(seal, s5) =>
    match s5 with
    | [] => Ok ({| Code := code; Msg := msg; MAddress := addr;
                   Signature := sig; CommittedSeal := seal |}, after)
    | _ :: _ => Err RLP.ErrTooManyElems
    end)))))).

(** [PayLoadWithoutSignature]: the encoding with the signature cleared. *)
Definition PayLoadWithoutSignature (m : message) : list byte :=
  EncodeRLP {| Code := Code m; Msg := Msg m; MAddress := MAddress m;
               Signature := []; CommittedSeal := CommittedSeal m |}.

Definition sampleMessage : message :=
  {| Code := 300%N; Msg := [x64; x6f; x67];
     MAddress := repeat x11 20;
     Signature := repeat xaa 65; CommittedSeal := [x05] |}.

(** ** The message handlers ([core/handler.go]) *)

Section Handlers.

(** Collaborators outside the core: [rlp.DecodeBytes] on the payload of a
    proposal and of a vote, and the recovery of the signer's address from
    a payload and a signature ([crypto.SigToPub], [crypto.PubkeyToAddress]). *)
Variable decodeProposal : list byte -> result Proposal.
Variable decodeVote : list byte -> result Vote.
Variable recoverAddress : list byte -> list byte -> result Address.

Definition GetAddressFromSignature (m : message) : result Address :=
  recoverAddress (PayLoadWithoutSignature m) (Signature m).

Definition verifyProposal (c : core) (proposal : Proposal) (msg : message) : result unit :=
  if (POLRound proposal <? -1) && (0 <=? POLRound proposal)
     && (PRound proposal <=? POLRound proposal)
  then Err ErrInvalidProposalPOLRound
  else
    signer ← GetAddressFromSignature msg;
    p ← GetProposerAddress (valSet c);
    if negb (addr_eqb p signer) then Err ErrInvalidProposalSignature
    else match PBlock proposal with
         | None => Err ErrEmptyBlockProposal
         | Some b =>
             if hash_eqb (BHash b) emptyBlockHash then Err ErrEmptyBlockProposal
             else Ok ()
         end.

Definition handlePropose (msg : message) (c : core) : result core :=
  let st := state c in
  proposal ← decodeProposal (Msg msg);
  match PBlock proposal with
  | None => Panic nil_deref   (* [proposal.Block.Hash()] of the log line *)
  | Some b =>
      match proposalReceived st with
      | Some _ => Ok c
      | None =>
          if negb (Number b =? blockNumber st) || negb (PRound proposal =? round st)
          then Ok c
          else
            _ ← verifyProposal c proposal msg;
            Ok (withState (SetProposalReceived (Some proposal) st) c)
      end
  end.

(** The block of [handlePrevote] run on a two-thirds majority
    [blockHash] of the prevotes of the vote's round: the unlock on a
    proof of lock, then the update of the valid block. *)
Definition unlockOnPOL (voteRound : Z) (blockHash : Hash) (st : roundState)
  : result roundState :=
  if negb (lockedRound st =? -1) && (lockedRound st <? voteRound)
     && (voteRound <=? round st)
  then match lockedBlock st with
       | None => Panic nil_deref
       | Some lb => if negb (hash_eqb (BHash lb) blockHash) then Ok (Unlock st) else Ok st
       end
  else Ok st.

Definition updateValid (voteRound : Z) (blockHash : Hash) (st : roundState)
  : result roundState :=
  if negb (hash_eqb blockHash emptyBlockHash) && (validRound st <? voteRound)
     && (voteRound =? round st)
  then match proposalReceived st with
       | None => Ok (SetProposalReceived None st)
       | Some p =>
           match PBlock p with
           | None => Panic nil_deref
           | Some pb =>
               if hash_eqb (BHash pb) blockHash
               then Ok (SetValidRoundAndBlock voteRound (Some pb) st)
               else Ok (SetProposalReceived None st)
           end
       end
  else Ok st.

Definition onPrevoteMajority (voteRound : Z) (votes : VoteSet) (c : core) : result core :=
  match TwoThirdMajority (Quorum (valSet c)) votes with
  | None => Ok c
  | Some blockHash =>
      st1 ← unlockOnPOL voteRound blockHash (state c);
      st2 ← updateValid voteRound blockHash st1;
      Ok (withState st2 c)
  end.

(** The re-gossip of a vote that is not the node's own. *)
Definition regossip (msg : message) (c : core) : core :=
  if addr_eqb (MAddress msg) (address c) then c else emit (Gossip msg) c.

(** The [switch] that closes [handlePrevote]. *)
Definition prevoteTransitions (voteRound : Z) (votes : VoteSet) (c : core) : result core :=
  let st := state c in
  let q := Quorum (valSet c) in
  if (round st <? voteRound) && HasTwoThirdAny q votes then
    enterNewRound (blockNumber st) voteRound c
  else if (round st =? voteRound) && step_leb RoundStepPrevote (step st) then
    match TwoThirdMajority q votes with
    | Some blockHash =>
        if IsProposalComplete q st || hash_eqb blockHash emptyBlockHash
        then Ok (enterPrecommit (blockNumber st) voteRound c)
        else if HasTwoThirdAny q votes
             then enterPrevoteWait (blockNumber st) voteRound c
             else Ok c
    | None =>
        if HasTwoThirdAny q votes
        then enterPrevoteWait (blockNumber st) voteRound c
        else Ok c
    end
  else
    match proposalReceived st with
    | Some p =>
        if (0 <=? POLRound p) && (POLRound p =? voteRound) then
          if IsProposalComplete q st
          then Ok (enterPrevote (blockNumber st) voteRound c)
          else Ok c
        else Ok c
    | None => Ok c
    end.

Definition handlePrevote (msg : message) (c : core) : result core :=
  let st := state c in
  vote ← decodeVote (Msg msg);
  match VBlockHash vote with
  | None => Panic "nil block hash is not allowed. Please make sure that prevote nil send an emptyBlockHash"
  | Some h =>
      if negb (VBlockNumber vote =? blockNumber st) then Ok c
      else
        ad ← addPrevote (MAddress msg) (VRound vote) h (valSet c) st;
        let '(added, st1) := (ad : bool * roundState) in
        if negb added then Ok c
        else
          match GetPrevotesByRound st1 (VRound vote) with
          | None => Panic "expect prevotes to exist now"
          | Some votes =>
              c1 ← onPrevoteMajority (VRound vote) votes (withState st1 c);
              prevoteTransitions (VRound vote) votes (regossip msg c1)
          end
  end.

Definition handlePrecommit (msg : message) (c : core) : result core :=
  let st := state c in
  vote ← decodeVote (Msg msg);
  match VBlockHash vote with
  | None => Panic "nil block hash is not allowed. Please make sure that prevote nil send an emptyBlockHash"
  | Some h =>
      if negb (VBlockNumber vote =? blockNumber st) then Ok c
      else
        ad ← addPrecommit (MAddress msg) (VRound vote) h (valSet c) st;
        let '(added, st1) := (ad : bool * roundState) in
        if negb added then Ok c
        else
          let c1 := regossip msg (withState st1 c) in
          match GetPrecommitsByRound st1 (VRound vote) with
          | None => Panic "expect precommits to exist now"
          | Some votes =>
              let q := Quorum (valSet c1) in
              let bn := blockNumber st1 in
              match TwoThirdMajority q votes with
              | Some blockHash =>
                  c2 ← enterNewRound bn (VRound vote) c1;
                  let c3 := enterPrecommit (blockNumber (state c2)) (VRound vote) c2 in
                  if negb (hash_eqb blockHash emptyBlockHash)
                  then Ok (enterCommit (blockNumber (state c3)) (VRound vote) c3)
                  else Ok (enterPrecommitWait (blockNumber (state c3)) (VRound vote) c3)
              | None =>
                  if (round st1 <=? VRound vote) && HasTwoThirdAny q votes then
                    c2 ← enterNewRound bn (VRound vote) c1;
                    Ok (enterPrecommitWait (blockNumber (state c2)) (VRound vote) c2)
                  else Ok c1
              end
          end
  end.

Definition handleMsg (msg : message) (c : core) : result core :=
  if (Code msg =? msgPropose)%N then handlePropose msg c
  else if (Code msg =? msgPrevote)%N then handlePrevote msg c
  else if (Code msg =? msgPrecommit)%N then handlePrecommit msg c
  else Err (ErrUnknownMsgCode (Code msg)).

End Handlers.

(** ** The validator-set provider ([backend/staking]) *)

(** [big.Int.Uint64] and [big.Int.Int64]: the low 64 bits of the magnitude,
    the second with the sign put back. *)
Definition bigUint64 (x : Z) : N := Z.to_N (Z.abs x mod 2 ^ 64).
Definition bigInt64 (x : Z) : Z :=
  let v := wrap64 (Z.abs x) in if x <? 0 then wrap64 (- v) else v.

(** Modelled from the spec: [utils.GetCheckpointNumber], absent from the
    sources: for height H, checkpoint C = H - (H mod Epoch). *)
Definition GetCheckpointNumber (epoch h : N) : N := (h - h mod epoch)%N.

Record TendermintExtra : Type := mkExtra {
  Seal : list byte;
  ECommittedSeal : list (list byte);
  ValidatorAdds : list byte
}.

Record StakingValidator : Type := mkStakingValidator { Epoch : N }.

Section Provider.

(** The chain reader and the decoders of the header's extra-data
    ([types.ExtractTendermintExtra], [rlp.DecodeBytes] into a slice of
    addresses), each answering an error or a value. *)
Variable Header : Type.
Variable GetHeaderByNumber : N -> option Header.
Variable headerHash : Header -> Hash.
Variable ExtractTendermintExtra : Header -> error + TendermintExtra.
Variable decodeAddresses : list byte -> error + list Address.

(** In Go the provider answers a pair; beside an error the set of the
    pair is the empty one built first. *)
Definition GetValSet (v : StakingValidator) (number : Z) : ValidatorSet * option error :=
  let blockNumber := bigInt64 number in
  let checkPoint := GetCheckpointNumber (Epoch v) (bigUint64 number) in
  let valSet := NewSet [] RoundRobin blockNumber in
  match GetHeaderByNumber checkPoint with
  | None => (valSet, Some ErrUnknownBlock)
  | Some header =>
      if hash_eqb (headerHash header) emptyBlockHash then (valSet, Some ErrUnknownBlock)
      else
        match ExtractTendermintExtra header with
        | inl err => (valSet, Some err)
        | inr extra =>
            if (length (ValidatorAdds extra) =? 0)%nat then (valSet, Some ErrEmptyValSet)
            else
              match decodeAddresses (ValidatorAdds extra) with
              | inl err => (valSet, Some err)
              | inr validatorAdds => (NewSet validatorAdds RoundRobin blockNumber, None)
              end
        end
  end.

End Provider.

(** * Predicates of the statements *)

(** A fired timeout is stale relative to the round state: another height,
    an earlier round, or the same round and an earlier step. *)
Definition stale (ti : timeoutInfo) (st : roundState) : Prop :=
  TBlockNumber ti <> blockNumber st
  \/ TRound ti < round st
  \/ (TRound ti = round st /\ stepCode (TStep ti) < stepCode (step st)).

(** The block pointer the selector hands to [SendVote]. *)
Definition prevoteBlock (st : roundState) : option Block :=
  if negb (lockedRound st =? -1) then lockedBlock st
  else match proposalReceived st with
       | None => None
       | Some p => PBlock p
       end.

(** [st'] has the lock of [st]; [st'] has the valid block and the received
    proposal of [st]. *)
Definition sameLock (st st' : roundState) : Prop :=
  lockedRound st' = lockedRound st /\ lockedBlock st' = lockedBlock st.

Definition sameValid (st st' : roundState) : Prop :=
  validRound st' = validRound st /\ validBlock st' = validBlock st
  /\ proposalReceived st' = proposalReceived st.

(** The condition of the unlock-on-POL rule: locked, in a round before the
    vote's, the vote's round not after the node's, and the locked block's
    hash other than the majority's. *)
Definition polUnlocks (voteRound : Z) (hmaj : Hash) (st : roundState) : Prop :=
  lockedRound st <> -1 /\ lockedRound st < voteRound /\ voteRound <= round st
  /\ BHash <$> lockedBlock st <> Some hmaj.

#[global] Instance polUnlocks_dec vr hmaj st : Decision (polUnlocks vr hmaj st).
Proof. unfold polUnlocks. apply _. Defined.

(** The invariants of the round state the handler relies on: a lock comes
    with its block, a stored proposal with its block. *)
Definition lockHasBlock (st : roundState) : Prop :=
  lockedBlock st = None -> lockedRound st = -1.

Definition proposalHasBlock (st : roundState) : Prop :=
  forall p, proposalReceived st = Some p -> PBlock p <> None.

(** The received proposal carries the block of hash [hmaj]. *)
Definition proposalMatches (hmaj : Hash) (st : roundState) : Prop :=
  exists p pb, proposalReceived st = Some p /\ PBlock p = Some pb /\ BHash pb = hmaj.

(** What the Go type of [message] gives: a 64-bit code, an address of
    twenty bytes, and byte slices that fit in the address space together
    with their headers. *)
Definition representable (m : message) : Prop :=
  (Code m < 2 ^ 64)%N
  /\ length (MAddress m) = AddressLength
  /\ (RLP.lenN (Msg m) + RLP.lenN (Signature m) + RLP.lenN (CommittedSeal m) + 65
      < 2 ^ 64)%N.

(** * Sample data *)

Definition addr (b : byte) : Address := repeat b AddressLength.
Definition V1 : Address := addr x01.
Definition V2 : Address := addr x02.
Definition V3 : Address := addr x03.
Definition V4 : Address := addr x04.

Definition hashB : Hash := repeat x0b HashLength.
Definition hashB' : Hash := repeat x0c HashLength.
Definition blockB : Block := {| Number := 1; BHash := hashB |}.
Definition blockB' : Block := {| Number := 1; BHash := hashB' |}.

Definition fourValidators : ValidatorSet := NewSet [V1; V2; V3; V4] RoundRobin 1.

Definition freshState : roundState :=
  {| blockNumber := 1; round := 0; step := RoundStepNewHeight;
     proposalReceived := None;
     lockedRound := -1; lockedBlock := None;
     validRound := -1; validBlock := None;
     block := Some blockB; prevotes := ∅; precommits := ∅ |}.

Definition atRoundStep (r : Z) (s : RoundStepType) (st : roundState) : roundState :=
  {| blockNumber := blockNumber st; round := r; step := s;
     proposalReceived := proposalReceived st;
     lockedRound := lockedRound st; lockedBlock := lockedBlock st;
     validRound := validRound st; validBlock := validBlock st;
     block := block st; prevotes := prevotes st; precommits := precommits st |}.

Definition nodeOf (a : Address) (vs : ValidatorSet) (st : roundState) : core :=
  {| state := st; valSet := vs; address := a; config := DefaultConfig; outbox := [] |}.

(** Height 1, round 0, step Prevote; three of four prevotes for [H_nil]. *)
Definition nilPolkaState : roundState :=
  setPrevotes {[ 0 := [(V1, emptyBlockHash); (V2, emptyBlockHash); (V3, emptyBlockHash)] ]}
    (atRoundStep 0 RoundStepPrevote freshState).

Definition nilPolkaCore : core := nodeOf V4 fourValidators nilPolkaState.

(** Height 1, round 1, step Prevote, the round-1 proposer [V2] in place. *)
Definition roundOneCore : core :=
  nodeOf V4 (CalcProposer fourValidators V1 1) (atRoundStep 1 RoundStepPrevote freshState).

Definition decodeAs {A : Type} (a : A) : list byte -> result A := fun _ => Ok a.
Definition signedBy (a : Address) : list byte -> list byte -> result Address := fun _ _ => Ok a.

(** A proposal of [V1] for height 1, round 0, whose POL round is [-2]. *)
Definition lowPOLProposal : Proposal := {| PBlock := Some blockB; PRound := 0; POLRound := -2 |}.
(** A proposal of [V2] for height 1, round 1, whose POL round is [5]. *)
Definition highPOLProposal : Proposal := {| PBlock := Some blockB; PRound := 1; POLRound := 5 |}.

Definition proposeMsg (a : Address) : message :=
  {| Code := msgPropose; Msg := []; MAddress := a; Signature := []; CommittedSeal := [] |}.

Definition roundZeroCore : core :=
  nodeOf V4 fourValidators (atRoundStep 0 RoundStepPropose freshState).

Definition staleProposeTimeout : timeoutInfo :=
  {| Duration := 3000; TBlockNumber := 1; TRound := 0; TStep := RoundStepPropose |}.

Definition precommitWaitTimeout : timeoutInfo :=
  {| Duration := 1000; TBlockNumber := 1; TRound := 0; TStep := RoundStepPrecommitWait |}.

Definition hashlessVote : Vote := {| VBlockNumber := 7; VRound := 3; VBlockHash := None |}.

Definition prevoteMsg (a : Address) : message :=
  {| Code := msgPrevote; Msg := []; MAddress := a; Signature := []; CommittedSeal := [] |}.

(** A chain with the checkpoint header of height 1024 only; the extra-data
    of a header is modelled by the header itself. *)
Definition sampleChain (n : N) : option (list byte) :=
  if (n =? 1024)%N then Some [x01; x02] else None.

Definition sampleExtra (h : list byte) : error + TendermintExtra :=
  inr {| Seal := []; ECommittedSeal := []; ValidatorAdds := h |}.

Definition sampleAddresses (b : list byte) : error + list Address :=
  inr (map addr b).

(** Scenario: [V1] locked on B in round 0; in round 1 [V2] proposes B',
    [V2] and [V3] have prevoted B', and the prevote of [V4] for B' comes in. *)
Definition polScenarioState : roundState :=
  {| blockNumber := 1; round := 1; step := RoundStepPrevote;
     proposalReceived := Some {| PBlock := Some blockB'; PRound := 1; POLRound := -1 |};
     lockedRound := 0; lockedBlock := Some blockB;
     validRound := 0; validBlock := Some blockB;
     block := None;
     prevotes := {[ 1 := [(V2, hashB'); (V3, hashB')] ]};
     precommits := ∅ |}.

Definition polScenarioCore : core :=
  nodeOf V1 (CalcProposer fourValidators V1 1) polScenarioState.

Definition polVote : Vote := {| VBlockNumber := 1; VRound := 1; VBlockHash := Some hashB' |}.

Definition polScenarioVotes : VoteSet := [(V2, hashB'); (V3, hashB'); (V4, hashB')].

Definition polScenarioAdded : roundState :=
  setPrevotes (<[ 1 := polScenarioVotes ]> (prevotes polScenarioState)) polScenarioState.

(** The same scenario with a node that holds the proposal of B, not of B'. *)
Definition unknownBlockState : roundState :=
  SetProposalReceived (Some {| PBlock := Some blockB; PRound := 1; POLRound := -1 |})
    polScenarioState.

Definition unknownBlockCore : core :=
  nodeOf V1 (CalcProposer fourValidators V1 1) unknownBlockState.

Definition unknownBlockAdded : roundState :=
  setPrevotes (<[ 1 := polScenarioVotes ]> (prevotes unknownBlockState)) unknownBlockState.

(** * Further model: outbox views, frames, transport, wizard *)

(** ** What a call of the state machine may change *)

(** The votes of others this node has asked the transport to pass on, the
    proposals it has sent and the timers it has armed. *)
Definition gossiped (acts : list action) : list message :=
  omap (fun a => match a with Gossip m => Some m | _ => None end) acts.

Definition sentProposals (acts : list action) : list Proposal :=
  omap (fun a => match a with SendPropose p => Some p | _ => None end) acts.

Definition scheduled (acts : list action) : list timeoutInfo :=
  omap (fun a => match a with ScheduleTimeout ti => Some ti | _ => None end) acts.

(** (round, step) of [st'] is not before that of [st]. *)
Definition notBefore (st st' : roundState) : Prop :=
  round st < round st'
  \/ (round st = round st' /\ stepCode (step st) <= stepCode (step st')).

(** [c'] comes from [c] by steps of the state machine: the height, the
    node, the configuration and the validators are those of [c]; so are the
    lock, the received proposal and the vote sets; the outbox of [c] has
    been extended, by nothing for the gossip transport; (round, step) has
    not gone back. *)
Record transition (c c' : core) : Prop := mkTransition {
  tr_height : blockNumber (state c') = blockNumber (state c);
  tr_address : address c' = address c;
  tr_config : config c' = config c;
  tr_validators : validators (valSet c') = validators (valSet c);
  tr_lock : sameLock (state c) (state c');
  tr_proposal : proposalReceived (state c') = proposalReceived (state c);
  tr_prevotes : prevotes (state c') = prevotes (state c);
  tr_precommits : precommits (state c') = precommits (state c);
  tr_outbox : exists l, outbox c' = outbox c ++ l /\ gossiped l = [];
  tr_order : notBefore (state c) (state c')
}.

(** [c'] comes from [c] by handling an event: as for [transition], but the
    lock, the proposal and the vote sets may change and votes may be
    gossiped. *)
Record handled (c c' : core) : Prop := mkHandled {
  hd_height : blockNumber (state c') = blockNumber (state c);
  hd_address : address c' = address c;
  hd_config : config c' = config c;
  hd_validators : validators (valSet c') = validators (valSet c);
  hd_outbox : exists l, outbox c' = outbox c ++ l;
  hd_order : notBefore (state c) (state c')
}.

(** [st'] is at the height, round and step of [st], with its vote sets. *)
Definition sameTurn (st st' : roundState) : Prop :=
  blockNumber st' = blockNumber st /\ round st' = round st /\ step st' = step st
  /\ prevotes st' = prevotes st /\ precommits st' = precommits st.

(** The round state is well formed: a lock comes with its block and a
    stored proposal with its block. *)
Definition wellFormed (st : roundState) : Prop :=
  lockHasBlock st /\ proposalHasBlock st.

(** The guard that opens [enterPropose], [enterPrevote] and
    [enterPrevoteWait]: the node is in a state that is ahead of the input
    state (another height, a later round, or the same round at step [s] or
    later). *)
Definition aheadOf (bn r : Z) (s : RoundStepType) (st : roundState) : bool :=
  negb (blockNumber st =? bn) || (r <? round st)
  || ((round st =? r) && step_leb s (step st)).

(** The node is a validator of the set and its proposer. *)
Definition proposesHere (c : core) : bool :=
  negb (GetByAddress (valSet c) (address c) =? -1) && IsProposer (valSet c) (address c).

Definition proposeTimer (c : core) (bn r : Z) : timeoutInfo :=
  {| Duration := ProposeTimeout (config c) r; TBlockNumber := bn; TRound := r;
     TStep := RoundStepPropose |}.

(** [startRoundZero]: take the validator set from the backend when the core
    has none yet, then enter round 0 of the current height. *)
Definition startRoundZero (Validators : Z -> ValidatorSet) (current : option ValidatorSet)
    (c : core) : result core :=
  let vs := match current with
            | None => Validators (blockNumber (state c))
            | Some vs => vs
            end in
  enterNewRound (blockNumber (state c)) 0 (withValSet vs c).

(** The core [enterNewRound] hands to [enterPropose]: round and step
    updated, the valid block cleared when the round is 0. *)
Definition enteredRound (r : Z) (c1 : core) : core :=
  let c2 := withState (UpdateRoundStep r RoundStepNewRound (state c1)) c1 in
  if r =? 0 then withState (SetValidRoundAndBlock (-1) None (state c2)) c2 else c2.

(** ** More sample data *)

(** [V1], the round-0 proposer, at height 1, round 0, step NewRound. *)
Definition proposerCore : core :=
  nodeOf V1 fourValidators (atRoundStep 0 RoundStepNewRound freshState).

(** ** [validator.ExtractValidators] *)

(** [copy(dst[:], src)] into a zeroed array of [n] bytes: the first [n]
    bytes of [src], the rest left zero. *)
Definition copyInto (n : nat) (src : list byte) : list byte :=
  take n src ++ repeat x00 (n - length (take n src)).

(** [ExtractValidators]: one address for each whole group of
    [AddressLength] bytes of the extra-data. *)
Definition ExtractValidators (extraData : list byte) : list Address :=
  map (fun i => copyInto AddressLength (drop (i * AddressLength) extraData))
      (seq 0 (length extraData / AddressLength)).

(** ** The backend's transport ([backend/backend.go]) *)

#[global] Instance byte_countable : Countable byte :=
  inj_countable Byte.to_N Byte.of_N Byte.of_to_N.

Module Backend.

Definition ErrNoBroadcaster : error := ErrExternal "no broadcaster is set".

Section Transport.

(** The peers of the transport.  Of [consensus.Broadcaster] the backend
    uses [FindPeers]: the connected peers among a set of target addresses
    (a Go map, read here as the list of its peers). *)
Variable Peer : Type.

Record backend : Type := mkBackend {
  address : Address;
  broadcaster : option (gset Address -> list Peer)
}.

(** What the backend asks of the outside: a send to a peer (each in a
    goroutine of its own), an event posted to the node itself. *)
Inductive netAction : Type :=
| PeerSend (p : Peer) (payload : list byte)
| PostToSelf (payload : list byte).

(** The [targets] map of [Gossip] and [FindPeers]: the validators other
    than the node. *)
Definition targetsOf (sb : backend) (valSet : ValidatorSet) : gset Address :=
  list_to_set (filter (fun a => a <> address sb) (validators valSet)).

Definition Gossip (sb : backend) (valSet : ValidatorSet) (payload : list byte)
  : option error * list netAction :=
  let targets := targetsOf sb valSet in
  match broadcaster sb with
  | None => (Some ErrNoBroadcaster, [])
  | Some findPeers =>
      if bool_decide (0 < size targets)%nat
      then (None, map (fun p => PeerSend p payload) (findPeers targets))
      else (None, [])
  end.

Definition Broadcast (sb : backend) (valSet : ValidatorSet) (payload : list byte)
  : option error * list netAction :=
  match Gossip sb valSet payload with
  | (Some err, sent) => (Some err, sent)
  | (None, sent) => (None, sent ++ [PostToSelf payload])
  end.

(** [FindPeers]: more than [F] peers of the set are connected; without a
    broadcaster the call dereferences nil. *)
Definition FindPeers (sb : backend) (valSet : ValidatorSet) : result bool :=
  match broadcaster sb with
  | None => Panic nil_deref
  | Some findPeers => Ok (F valSet <? Z.of_nat (length (findPeers (targetsOf sb valSet))))
  end.

End Transport.

End Backend.

(** ** The genesis wizard's staking account ([cmd/puppeth]) *)

Module Wizard.

(** The parameters handed to the staking contract: [[]interface{}] holding
    address lists, addresses and [*big.Int]s. *)
Inductive param : Type :=
| PAddresses (l : list Address)
| PAddress (a : Address)
| PBigInt (z : Z).

Record GenesisAccount : Type := mkGenesisAccount {
  Balance : Z;
  Code : list byte;
  Storage : list (Hash * Hash)
}.

(** [readStakingSCParams], with what was read from the console as
    arguments, in the order it is asked for. *)
Definition readStakingSCParams (candidatesOwner admin : Address)
    (epochPeriod maxValidatorSize minValidatorStake minVoteCap : Z) : list param :=
  [PAddress candidatesOwner; PBigInt epochPeriod; PBigInt maxValidatorSize;
   PBigInt minValidatorStake; PBigInt minVoteCap; PAddress admin].

(** The parameter list [configStakingSC] builds: the validators, then what
    [readStakingSCParams] returns. *)
Definition stakingSCParams (validators : list Address) (read : list param) : list param :=
  [PAddresses validators] ++ read.

Section Deploy.

(** Deployment to the simulated backend and the read-back of code and
    storage ([deployStakingSCToSimulatedBE], [getStakingSCData]). *)
Variable deploy : list param -> result (list byte * list (Hash * Hash)).

Definition createGenesisAccountWithStakingSC (validators : list Address)
    (params : list param) : result GenesisAccount :=
  deployed ← deploy params;
  let '(codeOfSC, storageOfSC) := (deployed : list byte * list (Hash * Hash)) in
  if (length params <? 3)%nat then Panic "index out of range"
  else match params !! (length params - 3)%nat with
       | Some (PBigInt minValidatorStake) =>
           Ok {| Balance := Z.of_nat (length validators) * minValidatorStake;
                 Code := codeOfSC; Storage := storageOfSC |}
       | _ => Err (ErrExternal "Failed to convert interface to *big.Int")
       end.

End Deploy.

End Wizard.

(** ** More sample data *)

Definition goodProposal : Proposal :=
  {| PBlock := Some blockB; PRound := 0; POLRound := -1 |}.

Definition emptyHashProposal : Proposal :=
  {| PBlock := Some {| Number := 1; BHash := emptyBlockHash |}; PRound := 0; POLRound := -1 |}.

Definition resignedMessage : message :=
  {| Code := 300%N; Msg := [x64; x6f; x67];
     MAddress := repeat x11 20;
     Signature := repeat xbb 65; CommittedSeal := [x05] |}.

(** The message as [PayLoadWithoutSignature] rebuilds it: the same fields,
    the signature emptied. *)
Definition unsigned (m : message) : message :=
  {| Code := Code m; Msg := Msg m; MAddress := MAddress m;
     Signature := []; CommittedSeal := CommittedSeal m |}.

(** Proof step for the fields of a [transition] that hold by computation. *)
Ltac transition_fields :=
  split; simpl;
  try done; try (by split); try (by exists []; rewrite app_nil_r);
  try (right; split; [reflexivity | simpl; lia]).

(** * Theorems *)

(** ** Steps *)

Lemma stepCode_inj a b : stepCode a = stepCode b -> a = b.
Proof. destruct a, b; simpl; intros H; try reflexivity; discriminate H. Qed.

Lemma step_eqb_eq a b : step_eqb a b = true <-> a = b.
Proof.
  unfold step_eqb. rewrite Z.eqb_eq. split.
  - apply stepCode_inj.
  - intros ->. reflexivity.
Qed.

(** ** enterPrecommit *)

Lemma enterPrecommit_id bn r c : enterPrecommit bn r c = c.
Proof. reflexivity. Qed.

(** C1: the precommit algorithm on entering Precommit.  The body of
    [enterPrecommit] is empty, so nothing of the algorithm runs: with a
    two-thirds majority of prevotes for [H_nil] in round 0 and the node in
    step Prevote of that round, the call leaves the core as it is; the step
    stays Prevote and no precommit is sent. *)
Theorem enterPrecommit_runs_nothing :
  (forall bn r c, enterPrecommit bn r c = c) /\
  GetPrevotesByRound (state nilPolkaCore) 0
    ≫= TwoThirdMajority (Quorum (valSet nilPolkaCore)) = Some emptyBlockHash /\
  step (state nilPolkaCore) = RoundStepPrevote /\
  step (state (enterPrecommit 1 0 nilPolkaCore)) = RoundStepPrevote /\
  sentVotes msgPrecommit (outbox (enterPrecommit 1 0 nilPolkaCore)) = [].
Proof.
  split; [intros; apply enterPrecommit_id|].
  repeat split; vm_compute; reflexivity.
Qed.

(** ** verifyProposal *)

(** The three conditions on the POL round are joined by [&&]; no number is
    both below [-1] and at least [0]. *)
Lemma polround_guard_dead (p : Proposal) :
  (POLRound p <? -1) && (0 <=? POLRound p) && (PRound p <=? POLRound p) = false.
Proof.
  destruct (Z.ltb_spec (POLRound p) (-1)); simpl; [|reflexivity].
  destruct (Z.leb_spec 0 (POLRound p)); simpl; [lia|reflexivity].
Qed.

(** The POL round of a proposal has no part in the verdict. *)
Lemma verifyProposal_ignores_POLRound recoverAddress c p msg (pol : Z) :
  verifyProposal recoverAddress c p msg
  = verifyProposal recoverAddress c
      {| PBlock := PBlock p; PRound := PRound p; POLRound := pol |} msg.
Proof. unfold verifyProposal. by rewrite !polround_guard_dead. Qed.

(** C2: proposals with a POL round out of range.  [verifyProposal] does not
    reject them: its test of the POL round never fires, and a proposal of
    the round's proposer with POL round [-2], and one with POL round [5] in
    round [1], pass the verification and are stored by [handlePropose]. *)
Theorem verifyProposal_accepts_POLRound_out_of_range :
  (forall p : Proposal,
     (POLRound p <? -1) && (0 <=? POLRound p) && (PRound p <=? POLRound p) = false) /\
  POLRound lowPOLProposal < -1 /\
  verifyProposal (signedBy V1) roundZeroCore lowPOLProposal (proposeMsg V1) = Ok () /\
  (proposalReceived ∘ state <$>
     handlePropose (decodeAs lowPOLProposal) (signedBy V1) (proposeMsg V1) roundZeroCore)
  = Ok (Some lowPOLProposal) /\
  (0 <= POLRound highPOLProposal /\ PRound highPOLProposal <= POLRound highPOLProposal) /\
  verifyProposal (signedBy V2) roundOneCore highPOLProposal (proposeMsg V2) = Ok () /\
  (proposalReceived ∘ state <$>
     handlePropose (decodeAs highPOLProposal) (signedBy V2) (proposeMsg V2) roundOneCore)
  = Ok (Some highPOLProposal).
Proof.
  split; [apply polround_guard_dead|].
  repeat split; try (vm_compute; congruence); vm_compute; reflexivity.
Qed.

(** ** enterNewRound and the proposer *)

Lemma index_of_lookup (l : list Address) (k : nat) (a : Address) :
  NoDup l -> l !! k = Some a -> index_of a l = Some k.
Proof.
  intros Hnd. revert k.
  induction Hnd as [|x l Hx Hnd IH]; intros k Hk; [done|].
  destruct k as [|k]; simpl in *.
  - injection Hk as ->. unfold addr_eqb. by rewrite bool_decide_eq_true_2.
  - unfold addr_eqb. rewrite bool_decide_eq_false_2.
    + by rewrite (IH k Hk).
    + intros ->. apply Hx. by eapply list_elem_of_lookup_2.
Qed.

Lemma index_of_lt (l : list Address) (a : Address) (i : nat) :
  index_of a l = Some i -> (i < length l)%nat.
Proof.
  revert i. induction l as [|x l IH]; intros i; simpl; [done|].
  destruct (addr_eqb x a).
  - intros [= <-]. lia.
  - destruct (index_of a l) as [j|]; simpl; [|done].
    intros [= <-]. specialize (IH j eq_refl). lia.
Qed.

Lemma defaultDoPrevote_valSet r c : valSet (defaultDoPrevote r c) = valSet c.
Proof. unfold defaultDoPrevote. repeat case_match; reflexivity. Qed.

Lemma enterPrevote_valSet bn r c : valSet (enterPrevote bn r c) = valSet c.
Proof.
  unfold enterPrevote. case_match; [reflexivity|].
  simpl. apply defaultDoPrevote_valSet.
Qed.

Lemma enterPropose_valSet bn r c : valSet (enterPropose bn r c) = valSet c.
Proof.
  unfold enterPropose. case_match; [reflexivity|].
  cbv zeta. case_match; rewrite ?enterPrevote_valSet; simpl; repeat case_match; reflexivity.
Qed.

(** What the call [CalcProposer(currentProposer.Address(), round)] of
    [enterNewRound] does to the proposer.  On entering a round [r] above the
    current one at the current height, with validators of distinct
    addresses, the call ends well and the proposer moves on by [r] places,
    the number of the round entered: index after =
    (index before + r) mod |set|. *)
Theorem enterNewRound_moves_proposer_by_round (bn r : Z) (c : core) (i : nat) :
  blockNumber (state c) = bn ->
  round (state c) < r ->
  NoDup (validators (valSet c)) ->
  proposerIndex (valSet c) = Some i ->
  exists c', enterNewRound bn r c = Ok c' /\
    proposerIndex (valSet c') = Some (Z.to_nat ((Z.of_nat i + r) mod Size (valSet c))).
Proof.
  intros Hbn Hr Hnd Hi.
  unfold proposerIndex in Hi.
  destruct (proposer (valSet c)) as [a|] eqn:Hp; [|done].
  pose proof (index_of_lt _ _ _ Hi) as Hlt.
  set (n := Size (valSet c)).
  assert (Hn : 0 < n) by (unfold n, Size; lia).
  pose proof (Z.mod_pos_bound (Z.of_nat i + r) n Hn) as Hpick.
  destruct (lookup_lt_is_Some_2 (validators (valSet c))
              (Z.to_nat ((Z.of_nat i + r) mod n))) as [a' Ha'].
  { unfold n, Size in *. lia. }
  unfold enterNewRound.
  rewrite Hbn, Z.eqb_refl. simpl.
  replace (r <? round (state c)) with false by (symmetry; apply Z.ltb_ge; lia).
  replace (round (state c) =? r) with false by (symmetry; apply Z.eqb_neq; lia).
  replace (round (state c) <? r) with true by (symmetry; apply Z.ltb_lt; lia).
  simpl. unfold GetProposerAddress. rewrite Hp. simpl.
  eexists. split; [reflexivity|].
  rewrite enterPropose_valSet.
  destruct (r =? 0); simpl.
  all: unfold CalcProposer; rewrite Hi; fold n.
  all: unfold proposerIndex; simpl; rewrite Ha'.
  all: by apply index_of_lookup.
Qed.

Lemma enterNewRound_moves_proposer_by_round_witness :
  exists c', enterNewRound 1 2 roundOneCore = Ok c'
             /\ proposerIndex (valSet c') = Some 3%nat.
Proof.
  apply (enterNewRound_moves_proposer_by_round 1 2 roundOneCore 1).
  - reflexivity.
  - simpl. lia.
  - apply (bool_decide_unpack (NoDup (validators (valSet roundOneCore)))).
    vm_compute. exact I.
  - reflexivity.
Defined.

(** C3: the proposer after [enterNewRound(h, r)] with [r] above the current
    round.  The node is in round 1 with the round-1 proposer (index 1 of 4)
    and enters round 2: the proposer moves on by 2 places to index 3, not by
    [2 - 1 = 1] place to index 2. *)
Theorem enterNewRound_proposer_from_round_one :
  blockNumber (state roundOneCore) = 1 /\ round (state roundOneCore) = 1 /\
  length (validators (valSet roundOneCore)) = 4%nat /\
  proposerIndex (valSet roundOneCore) = Some 1%nat /\
  (proposerIndex ∘ valSet <$> enterNewRound 1 2 roundOneCore) = Ok (Some 3%nat) /\
  Z.to_nat ((1 + (2 - 1)) mod 4) = 2%nat.
Proof. repeat split; vm_compute; reflexivity. Qed.

(** ** The timeout dispatcher *)

Lemma staleb_spec ti st : staleb ti st = true <-> stale ti st.
Proof.
  unfold staleb, stale, step_ltb.
  rewrite !orb_true_iff, andb_true_iff, negb_true_iff, Z.eqb_neq, !Z.ltb_lt, Z.eqb_eq.
  tauto.
Qed.

Lemma add64_succ r : - 2 ^ 63 <= r < 2 ^ 63 - 1 -> add64 r 1 = r + 1.
Proof.
  intros Hr. unfold add64, wrap64.
  rewrite Z.mod_small by lia. lia.
Qed.

(** C4: the timeout dispatcher.  A stale timeout leaves the core as it is
    (no transition, nothing sent, nothing scheduled).  A timeout that is not
    stale is for the current height and is dispatched on its step:
    NewHeight to [enterNewRound(h, 0)], NewRound to [enterPropose(h, 0)],
    Propose to [enterPrevote(h, r)], PrevoteWait to [enterPrecommit(h, r)],
    PrecommitWait to [enterPrecommit(h, r)] followed by
    [enterNewRound(h, r+1)], the sum being that of int64; any other step
    panics. *)
Theorem handleTimeout_dispatch (ti : timeoutInfo) (c : core) :
  (stale ti (state c) -> handleTimeout ti c = Ok c) /\
  (~ stale ti (state c) ->
   let h := blockNumber (state c) in
   let r := TRound ti in
   TBlockNumber ti = h /\
   match TStep ti with
   | RoundStepNewHeight => handleTimeout ti c = enterNewRound h 0 c
   | RoundStepNewRound => handleTimeout ti c = Ok (enterPropose h 0 c)
   | RoundStepPropose => handleTimeout ti c = Ok (enterPrevote h r c)
   | RoundStepPrevoteWait => handleTimeout ti c = Ok (enterPrecommit h r c)
   | RoundStepPrecommitWait =>
       handleTimeout ti c = enterNewRound h (add64 r 1) (enterPrecommit h r c)
       /\ (- 2 ^ 63 <= r < 2 ^ 63 - 1 -> add64 r 1 = r + 1)
   | _ => exists why, handleTimeout ti c = Panic why
   end).
Proof.
  split.
  - intros Hs. apply staleb_spec in Hs. unfold handleTimeout. by rewrite Hs.
  - intros Hns.
    assert (Hb : staleb ti (state c) = false).
    { destruct (staleb ti (state c)) eqn:E; [|done]. by apply staleb_spec in E. }
    assert (Hh : TBlockNumber ti = blockNumber (state c)).
    { destruct (Z.eq_dec (TBlockNumber ti) (blockNumber (state c))); [done|].
      exfalso. apply Hns. by left. }
    cbv zeta. split; [done|].
    unfold handleTimeout. rewrite Hb, Hh.
    destruct (TStep ti); try reflexivity; try (eexists; reflexivity).
    split; [reflexivity | apply add64_succ].
Qed.

(** The timer of (1, 0, Propose) fires when the node is at (1, 0, Prevote):
    nothing happens.  The timer of (1, 0, PrecommitWait) is not stale there
    and takes the node to round 1. *)
Lemma handleTimeout_dispatch_witness :
  handleTimeout staleProposeTimeout nilPolkaCore = Ok nilPolkaCore /\
  handleTimeout precommitWaitTimeout nilPolkaCore
  = enterNewRound 1 (0 + 1) (enterPrecommit 1 0 nilPolkaCore).
Proof.
  split.
  - apply (proj1 (handleTimeout_dispatch staleProposeTimeout nilPolkaCore)).
    right; right. split; [reflexivity | simpl; lia].
  - assert (Hns : ~ stale precommitWaitTimeout (state nilPolkaCore)).
    { intros [H | [H | [_ H]]]; [by apply H | simpl in H; lia | simpl in H; lia]. }
    destruct (proj2 (handleTimeout_dispatch precommitWaitTimeout nilPolkaCore) Hns)
      as [_ [-> _]].
    reflexivity.
Defined.

(** ** The default prevote selector *)

Lemma sentVotes_app t (l1 l2 : list action) :
  sentVotes t (l1 ++ l2) = sentVotes t l1 ++ sentVotes t l2.
Proof. unfold sentVotes. apply omap_app. Qed.

Lemma enterPrevote_cases bn r c :
  enterPrevote bn r c = c
  \/ enterPrevote bn r c
     = withState (UpdateRoundStep r RoundStepPrevote (state (defaultDoPrevote r c)))
         (defaultDoPrevote r c).
Proof. unfold enterPrevote. case_match; [by left | by right]. Qed.

Lemma defaultDoPrevote_emit r c :
  defaultDoPrevote r c = emit (SendVote msgPrevote (prevoteBlock (state c)) r) c.
Proof. unfold defaultDoPrevote, prevoteBlock. repeat case_match; reflexivity. Qed.

(** C7: the default prevote selector sends exactly one prevote, for the
    round it is given, chosen by the first rule that applies: the locked
    block when [locked_round] is not [-1]; else [H_nil] when no proposal has
    been received; else the block of the received proposal.  The round state
    is not touched, and [enterPrevote], when its guard lets it through, sends
    what the selector sends. *)
Theorem defaultDoPrevote_first_matching_rule (r : Z) (c : core) :
  let st := state c in
  let c' := defaultDoPrevote r c in
  (exists b : option Block,
      outbox c' = outbox c ++ [SendVote msgPrevote b r] /\
      sentVotes msgPrevote (outbox c') = sentVotes msgPrevote (outbox c) ++ [(voteHash b, r)] /\
      (lockedRound st <> -1 -> b = lockedBlock st) /\
      (lockedRound st = -1 -> proposalReceived st = None ->
       b = None /\ voteHash b = emptyBlockHash) /\
      (lockedRound st = -1 -> forall p, proposalReceived st = Some p -> b = PBlock p)) /\
  state c' = st /\
  (forall bn, enterPrevote bn r c = c \/ outbox (enterPrevote bn r c) = outbox c').
Proof.
  cbv zeta. rewrite defaultDoPrevote_emit. split; [|split].
  - exists (prevoteBlock (state c)). simpl. rewrite sentVotes_app. simpl.
    unfold prevoteBlock.
    destruct (Z.eqb_spec (lockedRound (state c)) (-1)) as [Hl | Hl]; simpl.
    + destruct (proposalReceived (state c)) as [p|] eqn:Hp.
      * repeat split; try done. by intros _ p' [= <-].
      * repeat split; done.
    + repeat split; done.
  - reflexivity.
  - intros bn. destruct (enterPrevote_cases bn r c) as [-> | ->]; [by left | right].
    by rewrite defaultDoPrevote_emit.
Qed.

(** ** Votes without a block hash *)

(** C8: a prevote or precommit whose decoded vote has no block hash makes
    the handler panic, whatever the height and the round of the vote and of
    the node; through [handleMsg] as well. *)
Theorem vote_without_block_hash_panics
    (decodeProposal : list byte -> result Proposal)
    (decodeVote : list byte -> result Vote)
    (recoverAddress : list byte -> list byte -> result Address)
    (msg : message) (c : core) (vote : Vote) :
  decodeVote (Msg msg) = Ok vote ->
  VBlockHash vote = None ->
  (exists why, handlePrevote decodeVote msg c = Panic why) /\
  (exists why, handlePrecommit decodeVote msg c = Panic why) /\
  (Code msg = msgPrevote \/ Code msg = msgPrecommit ->
   exists why, handleMsg decodeProposal decodeVote recoverAddress msg c = Panic why).
Proof.
  intros Hd Hh.
  assert (Hpv : exists why, handlePrevote decodeVote msg c = Panic why).
  { unfold handlePrevote. rewrite Hd. simpl. rewrite Hh. by eexists. }
  assert (Hpc : exists why, handlePrecommit decodeVote msg c = Panic why).
  { unfold handlePrecommit. rewrite Hd. simpl. rewrite Hh. by eexists. }
  repeat split; try done.
  unfold handleMsg. intros [-> | ->]; simpl; done.
Qed.

Lemma vote_without_block_hash_panics_witness :
  exists why,
    handleMsg (decodeAs lowPOLProposal) (decodeAs hashlessVote) (signedBy V2)
      (prevoteMsg V2) nilPolkaCore = Panic why.
Proof.
  apply (vote_without_block_hash_panics (decodeAs lowPOLProposal) (decodeAs hashlessVote)
           (signedBy V2) (prevoteMsg V2) nilPolkaCore hashlessVote);
    [reflexivity | reflexivity | left; reflexivity].
Defined.

(** ** The validator-set provider *)

Lemma bigUint64_small (x : Z) : 0 <= x < 2 ^ 64 -> Z.of_N (bigUint64 x) = x.
Proof.
  intros Hx. unfold bigUint64.
  rewrite Z.abs_eq by lia. rewrite Z.mod_small by lia. lia.
Qed.

Lemma bigInt64_small (x : Z) : 0 <= x < 2 ^ 63 -> bigInt64 x = x.
Proof.
  intros Hx. unfold bigInt64, wrap64.
  replace (x <? 0) with false by (symmetry; apply Z.ltb_ge; lia).
  rewrite Z.abs_eq by lia. rewrite Z.mod_small by lia. lia.
Qed.

(** C9: the validator set of a height H is resolved from the header at the
    checkpoint H - (H mod Epoch): [UnknownBlock] when that header is absent
    (or its hash is the zero hash), the error of the extra-data decoder,
    [EmptyValSet] when the extracted list of validator addresses is empty,
    the error of the RLP decoder, and otherwise the set of the decoded
    addresses with the round-robin policy. *)
Theorem GetValSet_outcomes
    (Header : Type) (GetHeaderByNumber : N -> option Header)
    (headerHash : Header -> Hash)
    (ExtractTendermintExtra : Header -> error + TendermintExtra)
    (decodeAddresses : list byte -> error + list Address)
    (v : StakingValidator) (number : Z) :
  (0 < Epoch v)%N ->
  let H := bigUint64 number in
  let C := (H - H mod Epoch v)%N in
  let res := GetValSet Header GetHeaderByNumber headerHash ExtractTendermintExtra
               decodeAddresses v number in
  (GetHeaderByNumber C = None -> res.2 = Some ErrUnknownBlock) /\
  (forall header, GetHeaderByNumber C = Some header ->
     (headerHash header = emptyBlockHash -> res.2 = Some ErrUnknownBlock) /\
     (headerHash header <> emptyBlockHash ->
        (forall err, ExtractTendermintExtra header = inl err -> res.2 = Some err) /\
        (forall extra, ExtractTendermintExtra header = inr extra ->
           (ValidatorAdds extra = [] -> res.2 = Some ErrEmptyValSet) /\
           (ValidatorAdds extra <> [] ->
              (forall err, decodeAddresses (ValidatorAdds extra) = inl err ->
                 res.2 = Some err) /\
              (forall addrs, decodeAddresses (ValidatorAdds extra) = inr addrs ->
                 res = (NewSet addrs RoundRobin (bigInt64 number), None) /\
                 policy res.1 = RoundRobin /\ validators res.1 = addrs))))).
Proof.
  intros _. cbv zeta. unfold GetValSet, GetCheckpointNumber.
  split.
  - intros ->. reflexivity.
  - intros header ->. split.
    + intros ->. reflexivity.
    + intros Hh. unfold hash_eqb. rewrite bool_decide_eq_false_2 by done.
      split.
      * intros err ->. reflexivity.
      * intros extra ->. split.
        -- intros ->. reflexivity.
        -- intros Hne.
           destruct (ValidatorAdds extra) as [|b l] eqn:Hva; [done|]. simpl.
           split.
           ++ intros err ->. reflexivity.
           ++ intros addrs ->. repeat split.
Qed.

Lemma GetValSet_outcomes_witness :
  GetValSet (list byte) sampleChain (fun h => h) sampleExtra sampleAddresses
    {| Epoch := 1024 |} 1500
  = (NewSet [V1; V2] RoundRobin 1500, None)
  /\ (GetValSet (list byte) sampleChain (fun h => h) sampleExtra sampleAddresses
        {| Epoch := 1024 |} 2500).2 = Some ErrUnknownBlock.
Proof.
  pose proof (GetValSet_outcomes (list byte) sampleChain (fun h => h) sampleExtra
                sampleAddresses {| Epoch := 1024 |} 1500 eq_refl) as [_ H1].
  pose proof (GetValSet_outcomes (list byte) sampleChain (fun h => h) sampleExtra
                sampleAddresses {| Epoch := 1024 |} 2500 eq_refl) as [H2 _].
  split.
  - destruct (H1 [x01; x02] eq_refl) as [_ H1'].
    destruct (H1' ltac:(discriminate)) as [_ H1''].
    destruct (H1'' _ eq_refl) as [_ H3].
    destruct (H3 ltac:(discriminate)) as [_ H4].
    destruct (H4 _ eq_refl) as [H5 _].
    exact H5.
  - exact (H2 eq_refl).
Defined.

(** ** handlePrevote: what the later steps leave alone *)

Lemma UpdateRoundStep_frame r s st :
  sameLock st (UpdateRoundStep r s st) /\ sameValid st (UpdateRoundStep r s st)
  /\ prevotes (UpdateRoundStep r s st) = prevotes st.
Proof. unfold UpdateRoundStep, sameLock, sameValid. case_match; simpl; done. Qed.

Lemma defaultDoPrevote_state r c : state (defaultDoPrevote r c) = state c.
Proof. by rewrite defaultDoPrevote_emit. Qed.

Lemma enterPrevote_frame bn r c :
  sameLock (state c) (state (enterPrevote bn r c))
  /\ sameValid (state c) (state (enterPrevote bn r c)).
Proof.
  destruct (enterPrevote_cases bn r c) as [-> | ->]; [done|].
  simpl. rewrite defaultDoPrevote_state.
  destruct (UpdateRoundStep_frame r RoundStepPrevote (state c)) as (? & ? & _). done.
Qed.

Lemma enterPropose_tail_frame bn r sRound c2 :
  let c3 := withState (UpdateRoundStep r RoundStepPropose (state c2)) c2 in
  let c4 := if IsProposalComplete (Quorum (valSet c3)) (state c3)
            then enterPrevote bn sRound c3 else c3 in
  sameLock (state c2) (state c4) /\ sameValid (state c2) (state c4).
Proof.
  cbv zeta.
  destruct (UpdateRoundStep_frame r RoundStepPropose (state c2)) as ([? ?] & (? & ? & ?) & _).
  case_match; [|done].
  match goal with
  | |- context [enterPrevote bn sRound ?c3] =>
      destruct (enterPrevote_frame bn sRound c3) as [[? ?] (? & ? & ?)]
  end.
  simpl in *. unfold sameLock, sameValid. repeat split; congruence.
Qed.

Lemma enterPropose_frame bn r c :
  sameLock (state c) (state (enterPropose bn r c))
  /\ sameValid (state c) (state (enterPropose bn r c)).
Proof.
  unfold enterPropose. case_match; [done|]. cbv zeta.
  match goal with
  | |- context [withState (UpdateRoundStep r RoundStepPropose (state ?c2)) ?c2] =>
      assert (Hst : state c2 = state c) by (repeat case_match; reflexivity);
      pose proof (enterPropose_tail_frame bn r (round (state c)) c2) as Ht
  end.
  cbv zeta in Ht. destruct Ht as [[H1 H2] (H3 & H4 & H5)].
  unfold sameLock, sameValid.
  rewrite H1, H2, H3, H4, H5, Hst. done.
Qed.

Lemma enterNewRound_tail_lock bn r c1 :
  let c2 := withState (UpdateRoundStep r RoundStepNewRound (state c1)) c1 in
  let c3 := if r =? 0
            then withState (SetValidRoundAndBlock (-1) None (state c2)) c2
            else c2 in
  sameLock (state c1) (state (enterPropose bn r c3)).
Proof.
  cbv zeta.
  match goal with
  | |- sameLock _ (state (enterPropose bn r ?c3)) =>
      destruct (enterPropose_frame bn r c3) as [[H1 H2] _];
      assert (H3 : sameLock (state c1) (state c3))
  end.
  { destruct (UpdateRoundStep_frame r RoundStepNewRound (state c1)) as ([? ?] & _ & _).
    case_match; simpl; done. }
  destruct H3 as [H3 H4]. unfold sameLock. split; congruence.
Qed.

Lemma enterNewRound_lock bn r c c' :
  enterNewRound bn r c = Ok c' -> sameLock (state c) (state c').
Proof.
  unfold enterNewRound. case_match; [by intros [= <-]|].
  destruct (round (state c) <? r).
  - unfold GetProposerAddress. destruct (proposer (valSet c)) as [a|]; simpl; [|done].
    intros [= <-].
    apply (enterNewRound_tail_lock bn r (withValSet (CalcProposer (valSet c) a r) c)).
  - simpl. intros [= <-]. apply (enterNewRound_tail_lock bn r c).
Qed.

Lemma enterNewRound_total bn r c :
  proposer (valSet c) <> None -> exists c', enterNewRound bn r c = Ok c'.
Proof.
  intros Hp. unfold enterNewRound. case_match; [by eexists|].
  unfold GetProposerAddress.
  destruct (proposer (valSet c)); [|done].
  destruct (round (state c) <? r); simpl; by eexists.
Qed.

Lemma enterPrevoteWait_frame bn r c c' :
  enterPrevoteWait bn r c = Ok c' ->
  sameLock (state c) (state c') /\ sameValid (state c) (state c').
Proof.
  unfold enterPrevoteWait. case_match; [by intros [= <-]|].
  case_match; [|done]. intros [= <-]. simpl.
  destruct (UpdateRoundStep_frame r RoundStepPrevoteWait (state c)) as (? & ? & _). done.
Qed.

Lemma enterPrevoteWait_total bn r c :
  prevotes (state c) !! r <> None -> exists c', enterPrevoteWait bn r c = Ok c'.
Proof.
  intros Hp. unfold enterPrevoteWait, GetPrevotesByRound.
  case_match; [by eexists|].
  destruct (prevotes (state c) !! r); [by eexists | done].
Qed.

Lemma regossip_state msg c : state (regossip msg c) = state c.
Proof. unfold regossip. case_match; reflexivity. Qed.

Lemma regossip_valSet msg c : valSet (regossip msg c) = valSet c.
Proof. unfold regossip. case_match; reflexivity. Qed.

Lemma prevoteTransitions_total vr votes c :
  proposer (valSet c) <> None ->
  prevotes (state c) !! vr <> None ->
  exists c', prevoteTransitions vr votes c = Ok c'.
Proof.
  intros Hp Hv. unfold prevoteTransitions.
  repeat case_match;
    (by eexists) || (by apply enterNewRound_total) || (by apply enterPrevoteWait_total).
Qed.

Lemma prevoteTransitions_lock vr votes c c' :
  prevoteTransitions vr votes c = Ok c' -> sameLock (state c) (state c').
Proof.
  unfold prevoteTransitions.
  repeat case_match; intros Hres;
    try (injection Hres as <-);
    try done;
    try (by eapply enterNewRound_lock);
    try (by eapply enterPrevoteWait_frame);
    try (by apply enterPrevote_frame).
Qed.

(** In the round of the node the closing [switch] does not enter a new
    round, and what it enters keeps the valid block and the proposal. *)
Lemma prevoteTransitions_valid vr votes c c' :
  vr = round (state c) ->
  prevoteTransitions vr votes c = Ok c' -> sameValid (state c) (state c').
Proof.
  intros ->. unfold prevoteTransitions.
  rewrite Z.ltb_irrefl. simpl.
  repeat case_match; intros Hres;
    try (injection Hres as <-);
    try done;
    try (by eapply enterPrevoteWait_frame);
    try (by apply enterPrevote_frame).
Qed.

Lemma prevoteTransitions_total_same_round vr votes c :
  vr = round (state c) ->
  prevotes (state c) !! vr <> None ->
  exists c', prevoteTransitions vr votes c = Ok c'.
Proof.
  intros -> Hv. unfold prevoteTransitions.
  rewrite Z.ltb_irrefl. simpl.
  repeat case_match; (by eexists) || (by apply enterPrevoteWait_total).
Qed.

(** ** handlePrevote on a two-thirds majority *)

Lemma addPrevote_added a r h vs st st1 :
  addPrevote a r h vs st = Ok (true, st1) ->
  exists votes, st1 = setPrevotes (<[r := votes]> (prevotes st)) st.
Proof.
  unfold addPrevote, mbind, result_bind, rbind.
  destruct (recordVote vs a h (default [] (prevotes st !! r))) as [[added votes]|e|w]; [|done|done].
  destruct added; intros [= <-]. by exists votes.
Qed.

Lemma handlePrevote_added decodeVote msg c vote h st1 votes :
  decodeVote (Msg msg) = Ok vote ->
  VBlockHash vote = Some h ->
  VBlockNumber vote = blockNumber (state c) ->
  addPrevote (MAddress msg) (VRound vote) h (valSet c) (state c) = Ok (true, st1) ->
  prevotes st1 !! VRound vote = Some votes ->
  handlePrevote decodeVote msg c
  = rbind (onPrevoteMajority (VRound vote) votes (withState st1 c))
      (fun c1 => prevoteTransitions (VRound vote) votes (regossip msg c1)).
Proof.
  intros Hd Hh Hbn Hadd Hv. unfold handlePrevote.
  rewrite Hd. simpl. rewrite Hh, Hbn, Z.eqb_refl. simpl.
  rewrite Hadd. simpl. unfold GetPrevotesByRound. rewrite Hv. reflexivity.
Qed.

Lemma unlockOnPOL_unlocks vr hmaj st :
  lockHasBlock st ->
  polUnlocks vr hmaj st -> unlockOnPOL vr hmaj st = Ok (Unlock st).
Proof.
  intros Hinv (Hl & Hlt & Hle & Hh). unfold unlockOnPOL.
  replace (lockedRound st =? -1) with false by (symmetry; by apply Z.eqb_neq).
  replace (lockedRound st <? vr) with true by (symmetry; by apply Z.ltb_lt).
  replace (vr <=? round st) with true by (symmetry; by apply Z.leb_le).
  simpl. destruct (lockedBlock st) as [lb|] eqn:Hlb; simpl in *.
  - unfold hash_eqb. rewrite bool_decide_eq_false_2; [done|]. intros E. apply Hh. by rewrite E.
  - by specialize (Hinv Hlb).
Qed.

Lemma unlockOnPOL_keeps vr hmaj st :
  lockHasBlock st ->
  ~ polUnlocks vr hmaj st -> unlockOnPOL vr hmaj st = Ok st.
Proof.
  intros Hinv Hn. unfold unlockOnPOL.
  destruct (Z.eqb_spec (lockedRound st) (-1)) as [|Hl]; [done|].
  destruct (Z.ltb_spec (lockedRound st) vr) as [Hlt|]; [|done].
  destruct (Z.leb_spec vr (round st)) as [Hle|]; [|done].
  simpl. destruct (lockedBlock st) as [lb|] eqn:Hlb.
  - unfold hash_eqb. destruct (decide (BHash lb = hmaj)) as [E|E].
    + by rewrite bool_decide_eq_true_2.
    + exfalso. apply Hn. unfold polUnlocks. rewrite Hlb. simpl.
      repeat split; try done. by intros [= ?].
  - by specialize (Hinv Hlb).
Qed.

(** The valid-block update never fails on a state whose proposal has its
    block, and it keeps the lock, the round and the vote sets. *)
Lemma updateValid_total vr hmaj st :
  proposalHasBlock st ->
  exists st', updateValid vr hmaj st = Ok st' /\ sameLock st st'
              /\ round st' = round st /\ prevotes st' = prevotes st.
Proof.
  intros Hp. unfold updateValid.
  case_match; [|by eexists].
  destruct (proposalReceived st) as [p|] eqn:Hpr; [|by eexists].
  destruct (PBlock p) as [pb|] eqn:Hpb; [|by destruct (Hp p Hpr)].
  case_match; by eexists.
Qed.

Lemma updateValid_skips vr hmaj st :
  ~ (hmaj <> emptyBlockHash /\ validRound st < vr /\ vr = round st) ->
  updateValid vr hmaj st = Ok st.
Proof.
  intros Hn. unfold updateValid, hash_eqb.
  destruct (decide (hmaj = emptyBlockHash)) as [E|E].
  - by rewrite bool_decide_eq_true_2.
  - rewrite bool_decide_eq_false_2 by done. simpl.
    destruct (Z.ltb_spec (validRound st) vr); [|done].
    destruct (Z.eqb_spec vr (round st)); [|done].
    exfalso. by apply Hn.
Qed.

Lemma updateValid_sets vr hmaj st p pb :
  hmaj <> emptyBlockHash -> validRound st < vr -> vr = round st ->
  proposalReceived st = Some p -> PBlock p = Some pb -> BHash pb = hmaj ->
  updateValid vr hmaj st = Ok (SetValidRoundAndBlock vr (Some pb) st).
Proof.
  intros Hn Hv Hr Hp Hb Hh. unfold updateValid, hash_eqb.
  rewrite bool_decide_eq_false_2 by done.
  replace (validRound st <? vr) with true by (symmetry; by apply Z.ltb_lt).
  replace (vr =? round st) with true by (symmetry; by apply Z.eqb_eq).
  simpl. rewrite Hp, Hb. by rewrite bool_decide_eq_true_2.
Qed.

Lemma updateValid_clears vr hmaj st :
  hmaj <> emptyBlockHash -> validRound st < vr -> vr = round st ->
  proposalHasBlock st ->
  (forall p pb, proposalReceived st = Some p -> PBlock p = Some pb -> BHash pb <> hmaj) ->
  updateValid vr hmaj st = Ok (SetProposalReceived None st).
Proof.
  intros Hn Hv Hr Hinv Hne. unfold updateValid, hash_eqb.
  rewrite bool_decide_eq_false_2 by done.
  replace (validRound st <? vr) with true by (symmetry; by apply Z.ltb_lt).
  replace (vr =? round st) with true by (symmetry; by apply Z.eqb_eq).
  simpl. destruct (proposalReceived st) as [p|] eqn:Hp; [|done].
  destruct (PBlock p) as [pb|] eqn:Hb; [|by destruct (Hinv p Hp)].
  rewrite bool_decide_eq_false_2; [done|]. by eapply Hne.
Qed.

(** After the block run on a majority, the closing [switch] of
    [handlePrevote] ends well and keeps the lock. *)
Lemma prevote_tail_lock msg vr votes c stB :
  proposer (valSet c) <> None ->
  prevotes stB !! vr <> None ->
  exists c', prevoteTransitions vr votes (regossip msg (withState stB c)) = Ok c'
             /\ sameLock stB (state c').
Proof.
  intros Hp Hv.
  destruct (prevoteTransitions_total vr votes (regossip msg (withState stB c))) as [c' Hc'].
  - by rewrite regossip_valSet.
  - by rewrite regossip_state.
  - exists c'. split; [done|].
    apply prevoteTransitions_lock in Hc'. by rewrite regossip_state in Hc'.
Qed.

Lemma prevote_tail_valid msg vr votes c stB :
  vr = round stB ->
  prevotes stB !! vr <> None ->
  exists c', prevoteTransitions vr votes (regossip msg (withState stB c)) = Ok c'
             /\ sameValid stB (state c').
Proof.
  intros Hr Hv.
  destruct (prevoteTransitions_total_same_round vr votes (regossip msg (withState stB c)))
    as [c' Hc'].
  - by rewrite regossip_state.
  - by rewrite regossip_state.
  - exists c'. split; [done|].
    apply prevoteTransitions_valid in Hc'; rewrite regossip_state in *; done.
Qed.

(** C5: the unlock-on-POL rule of [handlePrevote].  A newly admitted prevote
    is handled to the end; when the prevotes of its round then have a
    two-thirds majority [hmaj] and the node is locked, in a round before the
    vote's, the vote's round is not after the node's and the locked block's
    hash is not [hmaj], the node ends unlocked ([locked_round = -1],
    [locked_block] nil); in every other case the lock is as it was. *)
Theorem handlePrevote_unlock_on_POL
    (decodeVote : list byte -> result Vote) (msg : message) (c : core)
    (vote : Vote) (h : Hash) (st1 : roundState) (votes : VoteSet) :
  decodeVote (Msg msg) = Ok vote ->
  VBlockHash vote = Some h ->
  VBlockNumber vote = blockNumber (state c) ->
  addPrevote (MAddress msg) (VRound vote) h (valSet c) (state c) = Ok (true, st1) ->
  prevotes st1 !! VRound vote = Some votes ->
  lockHasBlock (state c) ->
  proposalHasBlock (state c) ->
  proposer (valSet c) <> None ->
  let unlocks :=
    exists hmaj, TwoThirdMajority (Quorum (valSet c)) votes = Some hmaj
                 /\ polUnlocks (VRound vote) hmaj (state c) in
  exists c', handlePrevote decodeVote msg c = Ok c' /\
    (unlocks -> lockedRound (state c') = -1 /\ lockedBlock (state c') = None) /\
    (~ unlocks -> lockedRound (state c') = lockedRound (state c)
                  /\ lockedBlock (state c') = lockedBlock (state c)).
Proof.
  intros Hd Hh Hbn Hadd Hv Hlock Hprop Hpr. cbv zeta.
  rewrite (handlePrevote_added _ _ _ _ _ _ _ Hd Hh Hbn Hadd Hv).
  destruct (addPrevote_added _ _ _ _ _ _ Hadd) as [vs' ->].
  unfold onPrevoteMajority. simpl valSet.
  destruct (TwoThirdMajority (Quorum (valSet c)) votes) as [hmaj|] eqn:Hmaj.
  - destruct (decide (polUnlocks (VRound vote) hmaj (state c))) as [Hu|Hu].
    + simpl state. rewrite unlockOnPOL_unlocks; [|exact Hlock|exact Hu].
      simpl.
      match goal with
      | |- context [updateValid ?vr ?hm ?stA] =>
          destruct (updateValid_total vr hm stA Hprop) as (stB & -> & [HB1 HB2] & HB3 & HB4)
      end.
      simpl.
      destruct (prevote_tail_lock msg (VRound vote) votes c stB Hpr) as (c' & Hc' & [HL1 HL2]).
      { rewrite HB4. simpl. simpl in Hv. by rewrite Hv. }
      exists c'. split; [exact Hc'|]. split.
      * intros _. simpl in *. split; congruence.
      * intros Hn. exfalso. apply Hn. by exists hmaj.
    + simpl state. rewrite unlockOnPOL_keeps; [|exact Hlock|exact Hu].
      simpl.
      match goal with
      | |- context [updateValid ?vr ?hm ?stA] =>
          destruct (updateValid_total vr hm stA Hprop) as (stB & -> & [HB1 HB2] & HB3 & HB4)
      end.
      simpl.
      destruct (prevote_tail_lock msg (VRound vote) votes c stB Hpr) as (c' & Hc' & [HL1 HL2]).
      { rewrite HB4. simpl. simpl in Hv. by rewrite Hv. }
      exists c'. split; [exact Hc'|]. split.
      * intros (hm & [= <-] & Hu'). done.
      * intros _. simpl in *. split; congruence.
  - simpl.
    match goal with
    | |- context [regossip msg (withState ?stA c)] =>
        destruct (prevote_tail_lock msg (VRound vote) votes c stA Hpr) as (c' & Hc' & [HL1 HL2])
    end.
    { simpl. simpl in Hv. by rewrite Hv. }
    exists c'. split; [exact Hc'|]. split.
    + intros (hm & [=] & _).
    + intros _. simpl in *. split; congruence.
Qed.

Lemma handlePrevote_unlock_on_POL_witness :
  exists c', handlePrevote (decodeAs polVote) (prevoteMsg V4) polScenarioCore = Ok c'
             /\ lockedRound (state c') = -1 /\ lockedBlock (state c') = None.
Proof.
  destruct (handlePrevote_unlock_on_POL (decodeAs polVote) (prevoteMsg V4) polScenarioCore
              polVote hashB' polScenarioAdded polScenarioVotes)
    as (c' & Hc' & Hu & _).
  - reflexivity.
  - reflexivity.
  - reflexivity.
  - vm_compute. reflexivity.
  - vm_compute. reflexivity.
  - intros H. discriminate H.
  - intros p [= <-]. discriminate.
  - discriminate.
  - exists c'. split; [exact Hc'|]. apply Hu.
    exists hashB'. split; [vm_compute; reflexivity|].
    unfold polUnlocks. simpl. repeat split; try lia. discriminate.
Defined.

Lemma unlockOnPOL_total vr hmaj st :
  lockHasBlock st ->
  exists stA, unlockOnPOL vr hmaj st = Ok stA /\ sameValid st stA
              /\ round stA = round st /\ prevotes stA = prevotes st.
Proof.
  intros Hinv. destruct (decide (polUnlocks vr hmaj st)) as [Hu|Hu].
  - exists (Unlock st). split; [by apply unlockOnPOL_unlocks|done].
  - exists st. split; [by apply unlockOnPOL_keeps|done].
Qed.

Lemma proposalMatches_dec hmaj st : proposalMatches hmaj st \/ ~ proposalMatches hmaj st.
Proof.
  unfold proposalMatches.
  destruct (proposalReceived st) as [p|]; [|right; by intros (? & ? & ? & _)].
  destruct (PBlock p) as [pb|] eqn:Hpb.
  - destruct (decide (BHash pb = hmaj)) as [E|E].
    + left. by exists p, pb.
    + right. intros (p' & pb' & [= <-] & Hb & Hh). congruence.
  - right. intros (p' & pb' & [= <-] & Hb & _). congruence.
Qed.

(** C6: the valid-block update of [handlePrevote].  A newly admitted prevote
    that gives the prevotes of its round a two-thirds majority [hmaj] other
    than [H_nil], with [valid_round] before the vote's round and the vote's
    round the node's: when the received proposal carries the block of hash
    [hmaj], [valid_round] and [valid_block] become the vote's round and that
    block (the proposal stays); otherwise the received proposal becomes nil
    (and the valid block stays). *)
Theorem handlePrevote_valid_block_update
    (decodeVote : list byte -> result Vote) (msg : message) (c : core)
    (vote : Vote) (h : Hash) (st1 : roundState) (votes : VoteSet) (hmaj : Hash) :
  decodeVote (Msg msg) = Ok vote ->
  VBlockHash vote = Some h ->
  VBlockNumber vote = blockNumber (state c) ->
  addPrevote (MAddress msg) (VRound vote) h (valSet c) (state c) = Ok (true, st1) ->
  prevotes st1 !! VRound vote = Some votes ->
  lockHasBlock (state c) ->
  proposalHasBlock (state c) ->
  TwoThirdMajority (Quorum (valSet c)) votes = Some hmaj ->
  hmaj <> emptyBlockHash ->
  validRound (state c) < VRound vote ->
  VRound vote = round (state c) ->
  exists c', handlePrevote decodeVote msg c = Ok c' /\
    (forall p pb, proposalReceived (state c) = Some p -> PBlock p = Some pb ->
       BHash pb = hmaj ->
       validRound (state c') = VRound vote /\ validBlock (state c') = Some pb
       /\ proposalReceived (state c') = Some p) /\
    (~ proposalMatches hmaj (state c) ->
       proposalReceived (state c') = None
       /\ validRound (state c') = validRound (state c)
       /\ validBlock (state c') = validBlock (state c)).
Proof.
  intros Hd Hh Hbn Hadd Hv Hlock Hprop Hmaj Hnil Hvr Hr.
  rewrite (handlePrevote_added _ _ _ _ _ _ _ Hd Hh Hbn Hadd Hv).
  destruct (addPrevote_added _ _ _ _ _ _ Hadd) as [vs' ->].
  unfold onPrevoteMajority. simpl valSet. rewrite Hmaj. simpl state.
  match goal with
  | |- context [unlockOnPOL ?vr ?hm ?st] =>
      destruct (unlockOnPOL_total vr hm st Hlock) as (stA & -> & (HA1 & HA2 & HA3) & HA4 & HA5)
  end.
  simpl in HA1, HA2, HA3, HA4, HA5. simpl.
  destruct (proposalMatches_dec hmaj (state c)) as [(p & pb & Hp & Hpb & Hhash) | Hno].
  - rewrite (updateValid_sets (VRound vote) hmaj stA p pb); try congruence.
    simpl.
    destruct (prevote_tail_valid msg (VRound vote) votes c
                (SetValidRoundAndBlock (VRound vote) (Some pb) stA))
      as (c' & Hc' & HV1 & HV2 & HV3).
    { simpl. congruence. }
    { simpl. rewrite HA5. simpl in Hv. by rewrite Hv. }
    exists c'. split; [exact Hc'|]. simpl in *. split.
    + intros p' pb' Hp' Hpb' _.
      assert (p' = p) as -> by congruence. assert (pb' = pb) as -> by congruence.
      repeat split; congruence.
    + intros Hn. exfalso. apply Hn. by exists p, pb.
  - rewrite (updateValid_clears (VRound vote) hmaj stA); try congruence.
    + simpl.
      destruct (prevote_tail_valid msg (VRound vote) votes c (SetProposalReceived None stA))
        as (c' & Hc' & HV1 & HV2 & HV3).
      { simpl. congruence. }
      { simpl. rewrite HA5. simpl in Hv. by rewrite Hv. }
      exists c'. split; [exact Hc'|]. simpl in *. split.
      * intros p pb Hp Hpb Hhash. exfalso. apply Hno. by exists p, pb.
      * intros _. repeat split; congruence.
    + intros p Hp. apply Hprop. congruence.
    + intros p pb Hp Hpb Hhash. apply Hno. exists p, pb. repeat split; congruence.
Qed.

Lemma handlePrevote_valid_block_update_witness :
  (exists c', handlePrevote (decodeAs polVote) (prevoteMsg V4) polScenarioCore = Ok c'
              /\ validRound (state c') = 1 /\ validBlock (state c') = Some blockB'
              /\ proposalReceived (state c') = proposalReceived polScenarioState)
  /\ (exists c', handlePrevote (decodeAs polVote) (prevoteMsg V4) unknownBlockCore = Ok c'
                 /\ proposalReceived (state c') = None
                 /\ validRound (state c') = 0 /\ validBlock (state c') = Some blockB).
Proof.
  split.
  - destruct (handlePrevote_valid_block_update (decodeAs polVote) (prevoteMsg V4)
                polScenarioCore polVote hashB' polScenarioAdded polScenarioVotes hashB')
      as (c' & Hc' & Hset & _).
    + reflexivity.
    + reflexivity.
    + reflexivity.
    + vm_compute. reflexivity.
    + vm_compute. reflexivity.
    + intros H. discriminate H.
    + intros p [= <-]. discriminate.
    + vm_compute. reflexivity.
    + discriminate.
    + simpl. lia.
    + reflexivity.
    + exists c'. split; [exact Hc'|]. exact (Hset _ blockB' eq_refl eq_refl eq_refl).
  - destruct (handlePrevote_valid_block_update (decodeAs polVote) (prevoteMsg V4)
                unknownBlockCore polVote hashB' unknownBlockAdded polScenarioVotes hashB')
      as (c' & Hc' & _ & Hclear).
    + reflexivity.
    + reflexivity.
    + reflexivity.
    + vm_compute. reflexivity.
    + vm_compute. reflexivity.
    + intros H. discriminate H.
    + intros p [= <-]. discriminate.
    + vm_compute. reflexivity.
    + discriminate.
    + simpl. lia.
    + reflexivity.
    + exists c'. split; [exact Hc'|]. apply Hclear.
      intros (p & pb & [= <-] & [= <-] & Hh). discriminate Hh.
Defined.

(** ** The wire codec: decoding what was encoded *)

Section Codec.

Local Open Scope N_scope.

Import RLP.

Lemma to_N_byteOf (n : N) : Byte.to_N (byteOf n) = n mod 256.
Proof.
  unfold byteOf.
  assert (Hlt : n mod 256 < 256) by (apply N.mod_lt; lia).
  destruct (Byte.of_N (n mod 256)) as [b|] eqn:E; simpl.
  - by apply Byte.to_of_N.
  - apply Byte.of_N_None_iff in E. lia.
Qed.

Lemma to_N_byteOf_small (n : N) : n < 256 -> Byte.to_N (byteOf n) = n.
Proof. intros Hn. rewrite to_N_byteOf. by apply N.mod_small. Qed.

Lemma bigEndian_snoc (l : list byte) (b : byte) :
  bigEndian (l ++ [b]) = bigEndian l * 256 + Byte.to_N b.
Proof. unfold bigEndian. by rewrite fold_left_app. Qed.

Lemma hd_snoc (l : list byte) (b d : byte) : l <> [] -> hd d (l ++ [b]) = hd d l.
Proof. by destruct l. Qed.

(** [putint] on a number of at most [w] bytes: the bytes read back give the
    number, there are between one and [w] of them, and the first is not
    zero unless the number is. *)
Lemma putint_upto_spec (w : nat) : forall i : N,
  (0 < w)%nat -> i < 256 ^ N.of_nat w ->
  bigEndian (putint_upto w i) = i
  /\ (1 <= length (putint_upto w i) <= w)%nat
  /\ (0 < i -> Byte.to_N (hd x00 (putint_upto w i)) <> 0).
Proof.
  induction w as [|w IH]; intros i Hw Hi; [lia|].
  simpl putint_upto.
  destruct (N.ltb_spec i 256) as [Hs|Hs].
  - unfold bigEndian. simpl. rewrite to_N_byteOf_small by done.
    repeat split; lia.
  - assert (Hw' : (0 < w)%nat).
    { destruct w; [|lia]. simpl in Hi. lia. }
    assert (Hq : i / 256 < 256 ^ N.of_nat w).
    { apply N.Div0.div_lt_upper_bound.
      rewrite Nat2N.inj_succ, N.pow_succ_r' in Hi. lia. }
    destruct (IH (i / 256) Hw' Hq) as (Hv & Hlen & Hhd).
    assert (Hne : putint_upto w (i / 256) <> []).
    { intros E. rewrite E in Hlen. simpl in Hlen. lia. }
    rewrite bigEndian_snoc, Hv, to_N_byteOf, length_app, hd_snoc by done.
    simpl length.
    repeat split; try lia.
    + pose proof (N.div_mod i 256). lia.
    + intros _. apply Hhd.
      assert (1 <= i / 256) by (apply N.div_le_lower_bound; lia). lia.
Qed.

Lemma putint_spec (i : N) :
  i < 2 ^ 64 ->
  bigEndian (putint i) = i
  /\ 1 <= lenN (putint i) <= 8
  /\ (0 < i -> Byte.to_N (hd x00 (putint i)) <> 0).
Proof.
  intros Hi. unfold putint, lenN.
  destruct (putint_upto_spec 8 i) as (Hv & Hlen & Hhd); [lia | exact Hi |].
  repeat split; try done; lia.
Qed.

Lemma readFull_app (b rest : list byte) :
  readFull (lenN b) (b ++ rest) = Ok (b, rest).
Proof.
  unfold readFull, lenN.
  rewrite length_app.
  replace (N.of_nat (length b + length rest) <? N.of_nat (length b)) with false
    by (symmetry; apply N.ltb_ge; lia).
  by rewrite Nat2N.id, take_app_length, drop_app_length.
Qed.

Lemma readUint_putint (i : N) (rest : list byte) :
  0 < i -> i < 2 ^ 64 ->
  readUint (lenN (putint i)) (putint i ++ rest) = Ok (i, rest).
Proof.
  intros Hpos Hi. destruct (putint_spec i Hi) as (Hv & Hlen & Hhd).
  unfold readUint.
  replace (lenN (putint i) =? 0) with false by (symmetry; apply N.eqb_neq; lia).
  rewrite readFull_app. simpl.
  replace (Byte.to_N (hd x00 (putint i)) =? 0) with false
    by (symmetry; apply N.eqb_neq; by apply Hhd).
  by rewrite andb_false_r, Hv.
Qed.

Lemma byteOf_tag (base size : N) :
  base + size < 256 -> Byte.to_N (byteOf (base + size)) = base + size.
Proof. apply to_N_byteOf_small. Qed.

Lemma readKind_stringHeader (size : N) (rest : list byte) :
  size < 2 ^ 64 ->
  readKind (encodeStringHeader size ++ rest) = Ok (KString size, rest).
Proof.
  intros Hsz. unfold encodeStringHeader.
  destruct (N.ltb_spec size 56) as [Hs|Hs]; simpl.
  - rewrite byteOf_tag by lia.
    replace (128 + size <? 128) with false by (symmetry; apply N.ltb_ge; lia).
    replace (128 + size <? 184) with true by (symmetry; apply N.ltb_lt; lia).
    f_equal. f_equal. f_equal. lia.
  - destruct (putint_spec size Hsz) as (_ & Hlen & _).
    rewrite byteOf_tag by lia.
    replace (183 + lenN (putint size) <? 128) with false by (symmetry; apply N.ltb_ge; lia).
    replace (183 + lenN (putint size) <? 184) with false by (symmetry; apply N.ltb_ge; lia).
    replace (183 + lenN (putint size) <? 192) with true by (symmetry; apply N.ltb_lt; lia).
    replace (183 + lenN (putint size) - 183) with (lenN (putint size)) by lia.
    rewrite readUint_putint by lia. simpl.
    by replace (size <? 56) with false by (symmetry; apply N.ltb_ge; lia).
Qed.

Lemma readKind_listHeader (size : N) (rest : list byte) :
  size < 2 ^ 64 ->
  readKind (listHeader size ++ rest) = Ok (KList size, rest).
Proof.
  intros Hsz. unfold listHeader.
  destruct (N.ltb_spec size 56) as [Hs|Hs]; simpl.
  - rewrite byteOf_tag by lia.
    replace (192 + size <? 128) with false by (symmetry; apply N.ltb_ge; lia).
    replace (192 + size <? 184) with false by (symmetry; apply N.ltb_ge; lia).
    replace (192 + size <? 192) with false by (symmetry; apply N.ltb_ge; lia).
    replace (192 + size <? 248) with true by (symmetry; apply N.ltb_lt; lia).
    f_equal. f_equal. f_equal. lia.
  - destruct (putint_spec size Hsz) as (_ & Hlen & _).
    rewrite byteOf_tag by lia.
    replace (247 + lenN (putint size) <? 128) with false by (symmetry; apply N.ltb_ge; lia).
    replace (247 + lenN (putint size) <? 184) with false by (symmetry; apply N.ltb_ge; lia).
    replace (247 + lenN (putint size) <? 192) with false by (symmetry; apply N.ltb_ge; lia).
    replace (247 + lenN (putint size) <? 248) with false by (symmetry; apply N.ltb_ge; lia).
    replace (247 + lenN (putint size) - 247) with (lenN (putint size)) by lia.
    rewrite readUint_putint by lia. simpl.
    by replace (size <? 56) with false by (symmetry; apply N.ltb_ge; lia).
Qed.

(** A byte string comes back from its encoding. *)
Lemma Bytes_encodeString (b rest : list byte) :
  lenN b < 2 ^ 64 ->
  Bytes (encodeString b ++ rest) = Ok (b, rest).
Proof.
  intros Hlen. unfold Bytes.
  destruct b as [|x [|y l]].
  - unfold encodeString. rewrite <- app_assoc, readKind_stringHeader by done.
    cbn [rbind]. rewrite (readFull_app [] rest). reflexivity.
  - unfold encodeString.
    destruct (N.leb_spec (Byte.to_N x) 127) as [Hx|Hx].
    + simpl. by replace (Byte.to_N x <? 128) with true by (symmetry; apply N.ltb_lt; lia).
    + rewrite <- app_assoc, readKind_stringHeader by done.
      cbn [rbind].
      change (readFull 1 ([x] ++ rest)) with (readFull (lenN [x]) ([x] ++ rest)).
      rewrite (readFull_app [x] rest). simpl.
      by replace (Byte.to_N x <? 128) with false by (symmetry; apply N.ltb_ge; lia).
  - unfold encodeString.
    rewrite <- app_assoc, readKind_stringHeader by done.
    cbn [rbind]. rewrite readFull_app. cbn [rbind].
    replace (lenN (x :: y :: l) =? 1) with false; [done|].
    symmetry. apply N.eqb_neq. unfold lenN. simpl length. lia.
Qed.

(** An address comes back from its encoding. *)
Lemma ByteArray_encodeString (a rest : list byte) :
  length a = AddressLength ->
  ByteArray (N.of_nat AddressLength) (encodeString a ++ rest) = Ok (a, rest).
Proof.
  intros Hlen. unfold ByteArray.
  assert (Henc : encodeString a = encodeStringHeader (lenN a) ++ a).
  { destruct a as [|x [|y l]]; try done. }
  assert (HlenN : lenN a = 20) by (unfold lenN; rewrite Hlen; reflexivity).
  rewrite Henc, <- app_assoc, readKind_stringHeader by (rewrite HlenN; done).
  cbn [rbind]. rewrite readFull_app, HlenN. reflexivity.
Qed.

(** A 64-bit unsigned integer comes back from its encoding. *)
Lemma Uint64_writeUint (i : N) (rest : list byte) :
  i < 2 ^ 64 ->
  Uint64 (writeUint i ++ rest) = Ok (i, rest).
Proof.
  intros Hi. unfold Uint64, writeUint.
  destruct (N.eqb_spec i 0) as [->|Hnz]; [reflexivity|].
  destruct (N.ltb_spec i 128) as [Hs|Hs]; simpl.
  - rewrite to_N_byteOf_small by lia.
    replace (i <? 128) with true by (symmetry; apply N.ltb_lt; lia).
    simpl. rewrite to_N_byteOf_small by lia.
    by replace (i =? 0) with false by (symmetry; by apply N.eqb_neq).
  - destruct (putint_spec i Hi) as (_ & Hlen & _).
    rewrite byteOf_tag by lia.
    replace (128 + lenN (putint i) <? 128) with false by (symmetry; apply N.ltb_ge; lia).
    replace (128 + lenN (putint i) <? 184) with true by (symmetry; apply N.ltb_lt; lia).
    simpl.
    replace (128 + lenN (putint i) - 128) with (lenN (putint i)) by lia.
    replace (8 <? lenN (putint i)) with false by (symmetry; apply N.ltb_ge; lia).
    rewrite readUint_putint by lia.
    replace (i <? 128) with false by (symmetry; apply N.ltb_ge; lia).
    by rewrite andb_false_r.
Qed.

(** The content of a list comes back from its encoding. *)
Lemma List_encodeList (items : list (list byte)) (rest : list byte) :
  lenN (concat items) < 2 ^ 64 ->
  List (encodeList items ++ rest) = Ok (concat items, rest).
Proof.
  intros Hlen. unfold List, encodeList.
  rewrite <- !app_assoc, readKind_listHeader by done.
  simpl. apply readFull_app.
Qed.

Lemma lenN_app {A : Type} (a b : list A) : lenN (a ++ b) = lenN a + lenN b.
Proof. unfold lenN. rewrite length_app. lia. Qed.

Lemma lenN_cons {A : Type} (x : A) (l : list A) : lenN (x :: l) = 1 + lenN l.
Proof. unfold lenN. simpl length. lia. Qed.

Lemma encodeStringHeader_len (size : N) :
  size < 2 ^ 64 -> lenN (encodeStringHeader size) <= 9.
Proof.
  intros Hsz. unfold encodeStringHeader.
  destruct (size <? 56).
  - unfold lenN. simpl. lia.
  - destruct (putint_spec size Hsz) as (_ & Hlen & _).
    rewrite lenN_cons. lia.
Qed.

Lemma encodeString_len (b : list byte) :
  lenN b < 2 ^ 64 -> lenN (encodeString b) <= lenN b + 9.
Proof.
  intros Hb.
  pose proof (encodeStringHeader_len (lenN b) Hb) as Hh.
  destruct b as [|x [|y l]]; unfold encodeString.
  - rewrite lenN_app. lia.
  - destruct (Byte.to_N x <=? 127); [lia|].
    rewrite lenN_app. change (lenN [x]) with 1 in *. lia.
  - rewrite lenN_app. lia.
Qed.

Lemma writeUint_len (i : N) : i < 2 ^ 64 -> lenN (writeUint i) <= 9.
Proof.
  intros Hi. unfold writeUint.
  destruct (i =? 0); [unfold lenN; simpl; lia|].
  destruct (i <? 128); [unfold lenN; simpl; lia|].
  destruct (putint_spec i Hi) as (_ & Hlen & _).
  rewrite lenN_cons. lia.
Qed.

Lemma decode_encode_app (m : message) (rest : list byte) :
  representable m -> DecodeRLP (EncodeRLP m ++ rest) = Ok (m, rest).
Proof.
  intros (Hcode & Haddr & Hfit).
  assert (HaddrN : lenN (MAddress m) = 20) by (unfold lenN; rewrite Haddr; reflexivity).
  pose proof (writeUint_len (Code m) Hcode) as L1.
  pose proof (encodeString_len (Msg m) ltac:(lia)) as L2.
  pose proof (encodeString_len (MAddress m) ltac:(lia)) as L3.
  pose proof (encodeString_len (Signature m) ltac:(lia)) as L4.
  pose proof (encodeString_len (CommittedSeal m) ltac:(lia)) as L5.
  unfold DecodeRLP, EncodeRLP.
  rewrite List_encodeList
    by (simpl concat; rewrite !lenN_app; change (lenN (@nil byte)) with 0; lia).
  cbn [rbind]. simpl concat.
  rewrite Uint64_writeUint by done. cbn [rbind].
  rewrite Bytes_encodeString by lia. cbn [rbind].
  rewrite ByteArray_encodeString by done. cbn [rbind].
  rewrite Bytes_encodeString by lia. cbn [rbind].
  rewrite Bytes_encodeString by lia. cbn [rbind].
  by destruct m.
Qed.

End Codec.

(** C10: the wire codec round-trips.  For every message the Go type can
    hold, decoding the stream written by [EncodeRLP] succeeds, gives back
    the message in all five fields and leaves what followed it in the
    stream. *)
Theorem DecodeRLP_EncodeRLP (m : message) :
  representable m ->
  DecodeRLP (EncodeRLP m) = Ok (m, [])
  /\ (forall rest, DecodeRLP (EncodeRLP m ++ rest) = Ok (m, rest))
  /\ (forall m' rest, DecodeRLP (EncodeRLP m) = Ok (m', rest) ->
       Code m' = Code m /\ Msg m' = Msg m /\ MAddress m' = MAddress m
       /\ Signature m' = Signature m /\ CommittedSeal m' = CommittedSeal m).
Proof.
  intros Hm.
  assert (H0 : DecodeRLP (EncodeRLP m) = Ok (m, [])).
  { rewrite <- (app_nil_r (EncodeRLP m)) at 1. by apply decode_encode_app. }
  split; [exact H0|]. split.
  - intros rest. by apply decode_encode_app.
  - intros m' rest. rewrite H0. by intros [= <- <-].
Qed.

Lemma DecodeRLP_EncodeRLP_witness :
  DecodeRLP (EncodeRLP sampleMessage) = Ok (sampleMessage, []).
Proof.
  apply (DecodeRLP_EncodeRLP sampleMessage).
  unfold representable. repeat split.
Defined.

(** * Further theorems *)

(** ** Steps of the state machine *)

Lemma notBefore_refl st : notBefore st st.
Proof. right. split; [done|lia]. Qed.

Lemma notBefore_trans st1 st2 st3 :
  notBefore st1 st2 -> notBefore st2 st3 -> notBefore st1 st3.
Proof. unfold notBefore. intros [?|[? ?]] [?|[? ?]]; [left|left|left|right]; lia. Qed.

Lemma transition_refl c : transition c c.
Proof. transition_fields. Qed.

Lemma gossiped_app (l1 l2 : list action) : gossiped (l1 ++ l2) = gossiped l1 ++ gossiped l2.
Proof. apply omap_app. Qed.

Lemma transition_trans c1 c2 c3 : transition c1 c2 -> transition c2 c3 -> transition c1 c3.
Proof.
  intros [h1 a1 g1 v1 [l1 l1'] p1 pv1 pc1 (o1 & Ho1 & Hg1) n1]
         [h2 a2 g2 v2 [l2 l2'] p2 pv2 pc2 (o2 & Ho2 & Hg2) n2].
  split; try congruence.
  - split; congruence.
  - exists (o1 ++ o2). split.
    + by rewrite Ho2, Ho1, app_assoc.
    + by rewrite gossiped_app, Hg1, Hg2.
  - by eapply notBefore_trans.
Qed.

Lemma UpdateRoundStep_notBefore r s st : notBefore st (UpdateRoundStep r s st).
Proof.
  unfold UpdateRoundStep, notBefore, step_ltb.
  destruct (Z.ltb_spec (round st) r); simpl; [by left|].
  destruct (Z.eqb_spec (round st) r); simpl; [|right; split; [done|lia]].
  destruct (Z.ltb_spec (stepCode (step st)) (stepCode s)); simpl; right; split; lia.
Qed.

(** When the request goes forward, [UpdateRoundStep] sets round and step. *)
Lemma UpdateRoundStep_sets r s st :
  round st < r \/ (round st = r /\ stepCode (step st) < stepCode s) ->
  round (UpdateRoundStep r s st) = r /\ step (UpdateRoundStep r s st) = s
  /\ blockNumber (UpdateRoundStep r s st) = blockNumber st.
Proof.
  intros H. unfold UpdateRoundStep, step_ltb.
  destruct (Z.ltb_spec (round st) r); simpl; [done|].
  destruct (Z.eqb_spec (round st) r); simpl; [|lia].
  destruct (Z.ltb_spec (stepCode (step st)) (stepCode s)); simpl; [done|lia].
Qed.

Lemma UpdateRoundStep_height r s st :
  blockNumber (UpdateRoundStep r s st) = blockNumber st
  /\ precommits (UpdateRoundStep r s st) = precommits st.
Proof. unfold UpdateRoundStep. case_match; done. Qed.

Lemma transition_step r s c :
  transition c (withState (UpdateRoundStep r s (state c)) c).
Proof.
  destruct (UpdateRoundStep_frame r s (state c)) as (Hl & (_ & _ & Hp) & Hpv).
  destruct (UpdateRoundStep_height r s (state c)) as [Hh Hpc].
  transition_fields. apply UpdateRoundStep_notBefore.
Qed.

Lemma transition_emit a c :
  gossiped [a] = [] -> transition c (emit a c).
Proof.
  intros Hg. transition_fields. by exists [a].
Qed.

Lemma transition_valid r b c :
  transition c (withState (SetValidRoundAndBlock r b (state c)) c).
Proof. transition_fields. Qed.

Lemma CalcProposer_validators vs a r : validators (CalcProposer vs a r) = validators vs.
Proof. unfold CalcProposer. by case_match. Qed.

Lemma transition_proposer a r c :
  transition c (withValSet (CalcProposer (valSet c) a r) c).
Proof. transition_fields. apply CalcProposer_validators. Qed.

Lemma transition_emit_step a r s c :
  gossiped [a] = [] ->
  transition c (withState (UpdateRoundStep r s (state c)) (emit a c)).
Proof.
  intros Hg. apply (transition_trans c (emit a c)); [by apply transition_emit|].
  apply (transition_step r s (emit a c)).
Qed.

Lemma enterPrevote_transition bn r c : transition c (enterPrevote bn r c).
Proof.
  destruct (enterPrevote_cases bn r c) as [-> | ->]; [apply transition_refl|].
  eapply transition_trans; [|apply transition_step].
  rewrite defaultDoPrevote_emit. by apply transition_emit.
Qed.

Lemma enterPropose_tail_transition bn r sRound c2 :
  transition c2
    (if IsProposalComplete
          (Quorum (valSet (withState (UpdateRoundStep r RoundStepPropose (state c2)) c2)))
          (state (withState (UpdateRoundStep r RoundStepPropose (state c2)) c2))
     then enterPrevote bn sRound (withState (UpdateRoundStep r RoundStepPropose (state c2)) c2)
     else withState (UpdateRoundStep r RoundStepPropose (state c2)) c2).
Proof.
  case_match.
  - eapply transition_trans; [apply transition_step | apply enterPrevote_transition].
  - apply transition_step.
Qed.

Lemma enterPropose_transition bn r c : transition c (enterPropose bn r c).
Proof.
  unfold enterPropose. case_match; [apply transition_refl|]. cbv zeta.
  match goal with
  | |- context [withState (UpdateRoundStep r RoundStepPropose (state ?c2)) ?c2] =>
      apply (transition_trans c c2);
        [|apply (enterPropose_tail_transition bn r (round (state c)) c2)]
  end.
  repeat case_match; try (by apply transition_emit).
  eapply transition_trans; by apply transition_emit.
Qed.

Lemma enterNewRound_transition bn r c c' :
  enterNewRound bn r c = Ok c' -> transition c c'.
Proof.
  unfold enterNewRound. case_match; [intros [= <-]; apply transition_refl|].
  assert (Htail : forall c1, transition c c1 ->
            transition c
              (enterPropose bn r
                 (if r =? 0
                  then withState (SetValidRoundAndBlock (-1) None
                         (state (withState (UpdateRoundStep r RoundStepNewRound (state c1)) c1)))
                         (withState (UpdateRoundStep r RoundStepNewRound (state c1)) c1)
                  else withState (UpdateRoundStep r RoundStepNewRound (state c1)) c1))).
  { intros c1 H1.
    eapply transition_trans; [|apply enterPropose_transition].
    eapply transition_trans; [exact H1|].
    case_match.
    - eapply transition_trans; [apply transition_step | apply transition_valid].
    - apply transition_step. }
  destruct (round (state c) <? r).
  - unfold GetProposerAddress. destruct (proposer (valSet c)) as [a|]; simpl; [|done].
    intros [= <-].
    apply (Htail (withValSet (CalcProposer (valSet c) a r) c)), transition_proposer.
  - simpl. intros [= <-]. apply (Htail c), transition_refl.
Qed.

Lemma enterPrevoteWait_transition bn r c c' :
  enterPrevoteWait bn r c = Ok c' -> transition c c'.
Proof.
  unfold enterPrevoteWait. case_match; [intros [= <-]; apply transition_refl|].
  case_match; [|done]. intros [= <-].
  by apply transition_emit_step.
Qed.

Lemma enterPrecommitWait_transition bn r c : transition c (enterPrecommitWait bn r c).
Proof.
  unfold enterPrecommitWait. repeat case_match; try apply transition_refl.
  cbv zeta. simpl state. by apply transition_emit_step.
Qed.

Lemma enterCommit_transition bn r c : transition c (enterCommit bn r c).
Proof.
  unfold enterCommit. repeat case_match; try apply transition_refl.
  cbv zeta. simpl state. by apply transition_emit_step.
Qed.

(** The guard shared by [enterPropose], [enterPrevote] and
    [enterPrevoteWait], read as a condition on the round state. *)
Lemma enter_guard_false bn r s st :
  negb (blockNumber st =? bn) || (r <? round st)
  || ((round st =? r) && step_leb s (step st)) = false ->
  blockNumber st = bn
  /\ (round st < r \/ (round st = r /\ stepCode (step st) < stepCode s)).
Proof.
  unfold step_leb. intros H.
  apply orb_false_iff in H as [H H3]. apply orb_false_iff in H as [H1 H2].
  apply negb_false_iff, Z.eqb_eq in H1. apply Z.ltb_ge in H2.
  split; [done|].
  destruct (Z.eqb_spec (round st) r) as [E|E]; [|left; lia].
  simpl in H3. apply Z.leb_gt in H3. right. done.
Qed.

Lemma enter_guard_true bn r s st :
  blockNumber st = bn -> round st = r -> stepCode s <= stepCode (step st) ->
  negb (blockNumber st =? bn) || (r <? round st)
  || ((round st =? r) && step_leb s (step st)) = true.
Proof.
  intros <- <- Hs. unfold step_leb.
  rewrite !Z.eqb_refl, Z.ltb_irrefl. simpl. by apply Z.leb_le.
Qed.

Lemma enterPrevote_lands bn r c :
  enterPrevote bn r c = c
  \/ (blockNumber (state c) = bn /\ round (state c) <= r
      /\ blockNumber (state (enterPrevote bn r c)) = bn
      /\ round (state (enterPrevote bn r c)) = r
      /\ step (state (enterPrevote bn r c)) = RoundStepPrevote).
Proof.
  unfold enterPrevote.
  destruct (negb (blockNumber (state c) =? bn) || (r <? round (state c))
            || ((round (state c) =? r) && step_leb RoundStepPrevote (step (state c))))
    eqn:Hg; [by left|].
  right. apply enter_guard_false in Hg as [Hbn Hr].
  simpl. rewrite defaultDoPrevote_state.
  destruct (UpdateRoundStep_sets r RoundStepPrevote (state c) Hr) as (-> & -> & ->).
  repeat split; try done. lia.
Qed.

Lemma enterPrevote_again bn r c :
  enterPrevote bn r (enterPrevote bn r c) = enterPrevote bn r c.
Proof.
  destruct (enterPrevote_lands bn r c) as [E | (_ & _ & Hbn & Hr & Hs)]; [by rewrite !E|].
  unfold enterPrevote at 1.
  rewrite (enter_guard_true bn r RoundStepPrevote); [done..|].
  rewrite Hs. simpl. lia.
Qed.

Lemma enterPropose_tail_lands bn r sRound c2 :
  blockNumber (state c2) = bn ->
  round (state c2) < r
  \/ (round (state c2) = r /\ stepCode (step (state c2)) < stepCode RoundStepPropose) ->
  sRound <= r ->
  let c3 := withState (UpdateRoundStep r RoundStepPropose (state c2)) c2 in
  let c4 := if IsProposalComplete (Quorum (valSet c3)) (state c3)
            then enterPrevote bn sRound c3 else c3 in
  blockNumber (state c4) = bn /\ round (state c4) = r
  /\ stepCode RoundStepPropose <= stepCode (step (state c4)).
Proof.
  intros Hbn Hr Hle c3 c4.
  assert (H3 : blockNumber (state c3) = bn /\ round (state c3) = r
               /\ step (state c3) = RoundStepPropose).
  { subst c3. cbn [state withState].
    destruct (UpdateRoundStep_sets r RoundStepPropose (state c2) Hr) as (-> & -> & ->).
    done. }
  destruct H3 as (H3a & H3b & H3c).
  subst c4. destruct (IsProposalComplete (Quorum (valSet c3)) (state c3)).
  - destruct (enterPrevote_lands bn sRound c3) as [E | (_ & Hle' & Hb & Hr' & Hs)].
    + rewrite E, H3a, H3b, H3c. done.
    + rewrite Hb, Hr', Hs. repeat split; try done; simpl; lia.
  - rewrite H3a, H3b, H3c. done.
Qed.

Lemma enterPropose_lands bn r c :
  enterPropose bn r c = c
  \/ (blockNumber (state c) = bn /\ round (state c) <= r
      /\ blockNumber (state (enterPropose bn r c)) = bn
      /\ round (state (enterPropose bn r c)) = r
      /\ stepCode RoundStepPropose <= stepCode (step (state (enterPropose bn r c)))).
Proof.
  unfold enterPropose.
  destruct (negb (blockNumber (state c) =? bn) || (r <? round (state c))
            || ((round (state c) =? r) && step_leb RoundStepPropose (step (state c))))
    eqn:Hg; [by left|].
  right. apply enter_guard_false in Hg as [Hbn Hr]. cbv zeta.
  assert (Hle : round (state c) <= r) by lia.
  split; [done|]. split; [done|].
  match goal with
  | |- context [withState (UpdateRoundStep r RoundStepPropose (state ?c2)) ?c2] =>
      assert (Hst : state c2 = state c) by (repeat case_match; reflexivity);
      apply (enterPropose_tail_lands bn r (round (state c)) c2)
  end; rewrite ?Hst; done.
Qed.

Lemma enterPropose_again bn r c :
  enterPropose bn r (enterPropose bn r c) = enterPropose bn r c.
Proof.
  destruct (enterPropose_lands bn r c) as [E | (_ & _ & Hbn & Hr & Hs)]; [by rewrite !E|].
  unfold enterPropose at 1.
  by rewrite (enter_guard_true bn r RoundStepPropose).
Qed.

Lemma enter_guard_false_intro bn r s st :
  blockNumber st = bn ->
  round st < r \/ (round st = r /\ stepCode (step st) < stepCode s) ->
  negb (blockNumber st =? bn) || (r <? round st)
  || ((round st =? r) && step_leb s (step st)) = false.
Proof.
  intros <- H. unfold step_leb. rewrite Z.eqb_refl. simpl.
  destruct H as [H | [<- H]].
  - replace (r <? round st) with false by (symmetry; apply Z.ltb_ge; lia).
    replace (round st =? r) with false by (symmetry; apply Z.eqb_neq; lia). done.
  - rewrite Z.ltb_irrefl, Z.eqb_refl. simpl. apply Z.leb_gt. lia.
Qed.

Lemma enterPropose_passes bn r c :
  blockNumber (state c) = bn ->
  round (state c) < r
  \/ (round (state c) = r /\ stepCode (step (state c)) < stepCode RoundStepPropose) ->
  blockNumber (state (enterPropose bn r c)) = bn
  /\ round (state (enterPropose bn r c)) = r
  /\ stepCode RoundStepPropose <= stepCode (step (state (enterPropose bn r c))).
Proof.
  intros Hbn Hr. unfold enterPropose.
  rewrite (enter_guard_false_intro bn r RoundStepPropose (state c) Hbn Hr). cbv zeta.
  match goal with
  | |- context [withState (UpdateRoundStep r RoundStepPropose (state ?c2)) ?c2] =>
      assert (Hst : state c2 = state c) by (repeat case_match; reflexivity);
      apply (enterPropose_tail_lands bn r (round (state c)) c2)
  end; rewrite ?Hst; try done. lia.
Qed.

Lemma enterNewRound_guard_false bn r st :
  negb (blockNumber st =? bn) || (r <? round st)
  || ((round st =? r) && negb (step_eqb (step st) RoundStepNewHeight)) = false ->
  blockNumber st = bn
  /\ (round st < r \/ (round st = r /\ step st = RoundStepNewHeight)).
Proof.
  intros H.
  apply orb_false_iff in H as [H H3]. apply orb_false_iff in H as [H1 H2].
  apply negb_false_iff, Z.eqb_eq in H1. apply Z.ltb_ge in H2.
  split; [done|].
  destruct (Z.eqb_spec (round st) r) as [E|E]; [|left; lia].
  simpl in H3. apply negb_false_iff, step_eqb_eq in H3. by right.
Qed.

(** [enterNewRound], once past its guard, leaves the node in the round
    entered, at step Propose or later. *)
Lemma enterNewRound_lands bn r c c' :
  enterNewRound bn r c = Ok c' ->
  c' = c
  \/ (blockNumber (state c) = bn /\ round (state c) <= r
      /\ blockNumber (state c') = bn /\ round (state c') = r
      /\ stepCode RoundStepPropose <= stepCode (step (state c'))).
Proof.
  unfold enterNewRound.
  destruct (negb (blockNumber (state c) =? bn) || (r <? round (state c))
            || ((round (state c) =? r)
                && negb (step_eqb (step (state c)) RoundStepNewHeight)))
    eqn:Hg; [intros [= <-]; by left|].
  apply enterNewRound_guard_false in Hg as [Hbn Hr].
  assert (Hr' : round (state c) < r
                \/ (round (state c) = r
                    /\ stepCode (step (state c)) < stepCode RoundStepNewRound)).
  { destruct Hr as [?|[? ->]]; [by left|right]. split; [done|simpl; lia]. }
  assert (Htail : forall c1, state c1 = state c ->
            let c2 := withState (UpdateRoundStep r RoundStepNewRound (state c1)) c1 in
            let c3 := if r =? 0
                      then withState (SetValidRoundAndBlock (-1) None (state c2)) c2
                      else c2 in
            blockNumber (state (enterPropose bn r c3)) = bn
            /\ round (state (enterPropose bn r c3)) = r
            /\ stepCode RoundStepPropose <= stepCode (step (state (enterPropose bn r c3)))).
  { intros c1 Hst c2 c3.
    destruct (UpdateRoundStep_sets r RoundStepNewRound (state c) Hr') as (Ha & Hb & Hc).
    assert (H3 : blockNumber (state c3) = bn /\ round (state c3) = r
                 /\ step (state c3) = RoundStepNewRound).
    { subst c3 c2. destruct (r =? 0); cbn [state withState SetValidRoundAndBlock
        blockNumber round step]; rewrite Hst, Ha, Hb, Hc; done. }
    destruct H3 as (H3a & H3b & H3c).
    apply enterPropose_passes; [done|]. right. rewrite H3c. split; [done|simpl; lia]. }
  intros Hres. right.
  assert (Hle : round (state c) <= r) by lia.
  split; [done|]. split; [done|].
  destruct (round (state c) <? r).
  - unfold GetProposerAddress in Hres.
    destruct (proposer (valSet c)) as [a|]; simpl in Hres; [|done].
    injection Hres as <-.
    apply (Htail (withValSet (CalcProposer (valSet c) a r) c) eq_refl).
  - simpl in Hres. injection Hres as <-. apply (Htail c eq_refl).
Qed.

Lemma enterNewRound_again bn r c c' :
  enterNewRound bn r c = Ok c' -> enterNewRound bn r c' = Ok c'.
Proof.
  intros Hres.
  destruct (enterNewRound_lands bn r c c' Hres) as [-> | (_ & _ & Hbn & Hr & Hs)]; [done|].
  unfold enterNewRound.
  rewrite Hbn, Hr, !Z.eqb_refl, Z.ltb_irrefl. simpl.
  replace (step_eqb (step (state c')) RoundStepNewHeight) with false; [done|].
  symmetry. unfold step_eqb. apply Z.eqb_neq. simpl in *. lia.
Qed.

Lemma enterPrevoteWait_lands bn r c c' :
  enterPrevoteWait bn r c = Ok c' ->
  c' = c
  \/ (blockNumber (state c) = bn /\ round (state c) <= r
      /\ blockNumber (state c') = bn /\ round (state c') = r
      /\ step (state c') = RoundStepPrevoteWait).
Proof.
  unfold enterPrevoteWait.
  destruct (negb (blockNumber (state c) =? bn) || (r <? round (state c))
            || ((round (state c) =? r)
                && step_leb RoundStepPrevoteWait (step (state c))))
    eqn:Hg; [intros [= <-]; by left|].
  apply enter_guard_false in Hg as [Hbn Hr].
  destruct (GetPrevotesByRound (state c) r); [|done].
  intros [= <-]. right. cbn [state withState emit].
  destruct (UpdateRoundStep_sets r RoundStepPrevoteWait (state c) Hr) as (-> & -> & ->).
  repeat split; try done. lia.
Qed.

Lemma enterPrevoteWait_again bn r c c' :
  enterPrevoteWait bn r c = Ok c' -> enterPrevoteWait bn r c' = Ok c'.
Proof.
  intros Hres.
  destruct (enterPrevoteWait_lands bn r c c' Hres) as [-> | (_ & _ & Hbn & Hr & Hs)]; [done|].
  unfold enterPrevoteWait.
  rewrite (enter_guard_true bn r RoundStepPrevoteWait); [done..|].
  rewrite Hs. simpl. lia.
Qed.

(** ** What the enter calls keep, where they land, what they send *)

Lemma enterNewRound_valid bn r c c' :
  enterNewRound bn r c = Ok c' ->
  (validRound (state c') = validRound (state c)
   /\ validBlock (state c') = validBlock (state c))
  \/ (r = 0 /\ validRound (state c') = -1 /\ validBlock (state c') = None).
Proof.
  unfold enterNewRound. case_match; [intros [= <-]; by left|].
  assert (Htail : forall c1, state c1 = state c ->
            let c2 := withState (UpdateRoundStep r RoundStepNewRound (state c1)) c1 in
            let c3 := if r =? 0
                      then withState (SetValidRoundAndBlock (-1) None (state c2)) c2
                      else c2 in
            (validRound (state (enterPropose bn r c3)) = validRound (state c)
             /\ validBlock (state (enterPropose bn r c3)) = validBlock (state c))
            \/ (r = 0 /\ validRound (state (enterPropose bn r c3)) = -1
                /\ validBlock (state (enterPropose bn r c3)) = None)).
  { intros c1 Hst c2 c3.
    destruct (enterPropose_frame bn r c3) as [_ (Hv1 & Hv2 & _)]. rewrite Hv1, Hv2.
    destruct (UpdateRoundStep_frame r RoundStepNewRound (state c)) as (_ & (Hu1 & Hu2 & _) & _).
    subst c3 c2. destruct (Z.eqb_spec r 0); cbn [state withState SetValidRoundAndBlock
      validRound validBlock]; rewrite ?Hst; [by right | by left]. }
  destruct (round (state c) <? r).
  - unfold GetProposerAddress. destruct (proposer (valSet c)) as [a|]; simpl; [|done].
    intros [= <-]. apply (Htail (withValSet (CalcProposer (valSet c) a r) c) eq_refl).
  - simpl. intros [= <-]. apply (Htail c eq_refl).
Qed.

(** X1: the enter calls of the state machine are frame-keeping steps.
    [enterPropose], [enterPrevote], [enterNewRound] and [enterPrevoteWait]
    keep the height, the node's address, the configuration, the validators,
    the lock, the received proposal and both vote sets; they only append to
    the outbox, and nothing for the gossip transport; (round, step) never
    goes back.  The valid block is kept too, except that [enterNewRound]
    clears it to [(-1, nil)] when the round entered is 0. *)
Theorem enter_calls_keep_the_frame (bn r : Z) (c : core) :
  (transition c (enterPropose bn r c)
   /\ sameValid (state c) (state (enterPropose bn r c)))
  /\ (transition c (enterPrevote bn r c)
      /\ sameValid (state c) (state (enterPrevote bn r c)))
  /\ (forall c', enterPrevoteWait bn r c = Ok c' ->
        transition c c' /\ sameValid (state c) (state c'))
  /\ (forall c', enterNewRound bn r c = Ok c' ->
        transition c c'
        /\ ((validRound (state c') = validRound (state c)
             /\ validBlock (state c') = validBlock (state c))
            \/ (r = 0 /\ validRound (state c') = -1 /\ validBlock (state c') = None))).
Proof.
  split; [split; [apply enterPropose_transition | apply enterPropose_frame]|].
  split; [split; [apply enterPrevote_transition | apply enterPrevote_frame]|].
  split.
  - intros c' Hres. split; [by eapply enterPrevoteWait_transition|].
    by eapply enterPrevoteWait_frame.
  - intros c' Hres. split; [by eapply enterNewRound_transition|].
    by eapply enterNewRound_valid.
Qed.

(** X2: repeated enter calls are no-ops after the first.  Calling
    [enterPropose], [enterPrevote], [enterNewRound] or [enterPrevoteWait]
    again with the same height and round on the core the first call left
    changes nothing. *)
Theorem enter_calls_idempotent (bn r : Z) (c : core) :
  enterPropose bn r (enterPropose bn r c) = enterPropose bn r c
  /\ enterPrevote bn r (enterPrevote bn r c) = enterPrevote bn r c
  /\ (forall c', enterNewRound bn r c = Ok c' -> enterNewRound bn r c' = Ok c')
  /\ (forall c', enterPrevoteWait bn r c = Ok c' -> enterPrevoteWait bn r c' = Ok c').
Proof.
  repeat split.
  - apply enterPropose_again.
  - apply enterPrevote_again.
  - apply enterNewRound_again.
  - apply enterPrevoteWait_again.
Qed.

(** X3: where the enter calls land.  A call that is not ignored was made
    for the node's height and for a round not before the node's, and leaves
    the node in the round entered: at step Prevote after [enterPrevote], at
    step PrevoteWait after [enterPrevoteWait], at step Propose or later
    after [enterPropose] and [enterNewRound]. *)
Theorem enter_calls_land (bn r : Z) (c : core) :
  (enterPropose bn r c = c
   \/ (blockNumber (state c) = bn /\ round (state c) <= r
       /\ blockNumber (state (enterPropose bn r c)) = bn
       /\ round (state (enterPropose bn r c)) = r
       /\ stepCode RoundStepPropose <= stepCode (step (state (enterPropose bn r c)))))
  /\ (enterPrevote bn r c = c
      \/ (blockNumber (state c) = bn /\ round (state c) <= r
          /\ blockNumber (state (enterPrevote bn r c)) = bn
          /\ round (state (enterPrevote bn r c)) = r
          /\ step (state (enterPrevote bn r c)) = RoundStepPrevote))
  /\ (forall c', enterPrevoteWait bn r c = Ok c' ->
        c' = c
        \/ (blockNumber (state c) = bn /\ round (state c) <= r
            /\ blockNumber (state c') = bn /\ round (state c') = r
            /\ step (state c') = RoundStepPrevoteWait))
  /\ (forall c', enterNewRound bn r c = Ok c' ->
        c' = c
        \/ (blockNumber (state c) = bn /\ round (state c) <= r
            /\ blockNumber (state c') = bn /\ round (state c') = r
            /\ stepCode RoundStepPropose <= stepCode (step (state c')))).
Proof.
  split; [apply enterPropose_lands|].
  split; [apply enterPrevote_lands|].
  split; [apply enterPrevoteWait_lands | apply enterNewRound_lands].
Qed.

Lemma enterPrevote_outbox bn r c :
  outbox (enterPrevote bn r c)
  = outbox c ++ (if aheadOf bn r RoundStepPrevote (state c) then []
                 else [SendVote msgPrevote (prevoteBlock (state c)) r]).
Proof.
  unfold enterPrevote, aheadOf. case_match; simpl.
  - by rewrite app_nil_r.
  - by rewrite defaultDoPrevote_emit.
Qed.

Lemma IsProposalComplete_step q r s st :
  IsProposalComplete q (UpdateRoundStep r s st) = IsProposalComplete q st.
Proof.
  unfold IsProposalComplete.
  destruct (UpdateRoundStep_frame r s st) as (_ & (_ & _ & ->) & ->). done.
Qed.

Lemma enterPropose_outbox (bn r : Z) (c : core) :
  aheadOf bn r RoundStepPropose (state c) = false ->
  outbox (enterPropose bn r c)
  = outbox c
    ++ [ScheduleTimeout (proposeTimer c bn r)]
    ++ (if proposesHere c then [SendPropose (defaultDecideProposal r c)] else [])
    ++ (if IsProposalComplete (Quorum (valSet c)) (state c) && (round (state c) =? r)
        then [SendVote msgPrevote (prevoteBlock (state c)) r] else []).
Proof.
  intros Hg. unfold enterPropose. unfold aheadOf in Hg. rewrite Hg.
  apply enter_guard_false in Hg as [Hbn Hr]. cbv zeta.
  set (c1 := emit (ScheduleTimeout {| Duration := ProposeTimeout (config c) r;
                                      TBlockNumber := bn; TRound := r;
                                      TStep := RoundStepPropose |}) c).
  assert (Hprop : forall c2, state c2 = state c -> valSet c2 = valSet c ->
            outbox (if IsProposalComplete
                         (Quorum (valSet (withState (UpdateRoundStep r RoundStepPropose (state c2)) c2)))
                         (state (withState (UpdateRoundStep r RoundStepPropose (state c2)) c2))
                    then enterPrevote bn (round (state c))
                           (withState (UpdateRoundStep r RoundStepPropose (state c2)) c2)
                    else withState (UpdateRoundStep r RoundStepPropose (state c2)) c2)
            = outbox c2
              ++ (if IsProposalComplete (Quorum (valSet c)) (state c) && (round (state c) =? r)
                  then [SendVote msgPrevote (prevoteBlock (state c)) r] else [])).
  { intros c2 Hst Hvs. cbn [state withState valSet].
    rewrite Hst, Hvs, IsProposalComplete_step.
    destruct (IsProposalComplete (Quorum (valSet c)) (state c)); simpl;
      [|by rewrite app_nil_r].
    rewrite enterPrevote_outbox. cbn [state withState outbox]. f_equal.
    destruct (UpdateRoundStep_sets r RoundStepPropose (state c) Hr) as (Ha & Hb & Hc).
    destruct (UpdateRoundStep_frame r RoundStepPropose (state c))
      as ([Hl1 Hl2] & (_ & _ & Hp) & _).
    unfold aheadOf, step_leb. rewrite Ha, Hb, Hc, Hbn, Z.eqb_refl. simpl.
    unfold prevoteBlock. rewrite Hl1, Hl2, Hp.
    destruct (Z.eqb_spec (round (state c)) r) as [E|E].
    - rewrite E, Z.ltb_irrefl, Z.eqb_refl. done.
    - replace (round (state c) <? r) with true by (symmetry; apply Z.ltb_lt; lia). done. }
  unfold proposesHere, proposeTimer.
  change (valSet c1) with (valSet c). change (address c1) with (address c).
  destruct (GetByAddress (valSet c) (address c) =? -1); simpl negb; cbn [andb].
  - rewrite (Hprop c1 eq_refl eq_refl). subst c1. simpl. by rewrite <- !app_assoc.
  - destruct (IsProposer (valSet c) (address c)).
    + rewrite (Hprop (emit (SendPropose (defaultDecideProposal r c1)) c1) eq_refl eq_refl).
      subst c1. simpl. by rewrite <- !app_assoc.
    + rewrite (Hprop c1 eq_refl eq_refl). subst c1. simpl. by rewrite <- !app_assoc.
Qed.

Lemma scheduled_app (l1 l2 : list action) :
  scheduled (l1 ++ l2) = scheduled l1 ++ scheduled l2.
Proof. apply omap_app. Qed.

Lemma sentProposals_app (l1 l2 : list action) :
  sentProposals (l1 ++ l2) = sentProposals l1 ++ sentProposals l2.
Proof. apply omap_app. Qed.

Lemma enterPropose_scheduled bn r c :
  aheadOf bn r RoundStepPropose (state c) = false ->
  scheduled (outbox (enterPropose bn r c)) = scheduled (outbox c) ++ [proposeTimer c bn r].
Proof.
  intros Hg. rewrite (enterPropose_outbox bn r c Hg), !scheduled_app.
  f_equal. repeat case_match; reflexivity.
Qed.

Lemma enterPropose_sentProposals bn r c :
  aheadOf bn r RoundStepPropose (state c) = false ->
  sentProposals (outbox (enterPropose bn r c))
  = sentProposals (outbox c)
    ++ (if proposesHere c then [defaultDecideProposal r c] else []).
Proof.
  intros Hg. rewrite (enterPropose_outbox bn r c Hg), !sentProposals_app.
  f_equal. repeat case_match; reflexivity.
Qed.

(** X4: what [enterPropose] sends.  A call that gets past the guard arms
    the propose timer of the round, then sends one proposal, the one of
    [defaultDecideProposal], exactly when the node is a validator and the
    proposer (none otherwise), then prevotes at once exactly when the
    proposal is already complete and the round entered is the node's
    round; nothing else is sent.  So a node that is not the proposer never
    proposes, and the timer is armed whether the node is a validator or
    not. *)
Theorem enterPropose_sends (bn r : Z) (c : core) :
  aheadOf bn r RoundStepPropose (state c) = false ->
  outbox (enterPropose bn r c)
  = outbox c
    ++ [ScheduleTimeout (proposeTimer c bn r)]
    ++ (if proposesHere c then [SendPropose (defaultDecideProposal r c)] else [])
    ++ (if IsProposalComplete (Quorum (valSet c)) (state c) && (round (state c) =? r)
        then [SendVote msgPrevote (prevoteBlock (state c)) r] else [])
  /\ scheduled (outbox (enterPropose bn r c))
     = scheduled (outbox c) ++ [proposeTimer c bn r]
  /\ (proposesHere c = false ->
      sentProposals (outbox (enterPropose bn r c)) = sentProposals (outbox c))
  /\ (proposesHere c = true ->
      sentProposals (outbox (enterPropose bn r c))
      = sentProposals (outbox c) ++ [defaultDecideProposal r c]).
Proof.
  intros Hg.
  split; [by apply enterPropose_outbox|].
  split; [by apply enterPropose_scheduled|].
  rewrite (enterPropose_sentProposals bn r c Hg).
  split; intros ->; [by rewrite app_nil_r | done].
Qed.

Lemma enterPropose_sends_witness :
  outbox (enterPropose 1 0 proposerCore)
  = [ScheduleTimeout (proposeTimer proposerCore 1 0);
     SendPropose {| PBlock := Some blockB; PRound := 0; POLRound := -1 |}].
Proof.
  rewrite (proj1 (enterPropose_sends 1 0 proposerCore eq_refl)). reflexivity.
Defined.

(** ** Starting a height, and the timeouts that move a node on *)

Lemma enterNewRound_same_round bn r c :
  blockNumber (state c) = bn -> round (state c) = r ->
  step (state c) = RoundStepNewHeight ->
  enterNewRound bn r c = Ok (enterPropose bn r (enteredRound r c)).
Proof.
  intros Hbn Hr Hs. unfold enterNewRound.
  rewrite Hbn, Hr, Hs, Z.eqb_refl, Z.ltb_irrefl, Z.eqb_refl. reflexivity.
Qed.

Lemma enterNewRound_later_round bn r c a :
  blockNumber (state c) = bn -> round (state c) < r ->
  proposer (valSet c) = Some a ->
  enterNewRound bn r c
  = Ok (enterPropose bn r (enteredRound r (withValSet (CalcProposer (valSet c) a r) c))).
Proof.
  intros Hbn Hr Hp. unfold enterNewRound, GetProposerAddress.
  rewrite Hbn, Hp, Z.eqb_refl.
  replace (r <? round (state c)) with false by (symmetry; apply Z.ltb_ge; lia).
  replace (round (state c) =? r) with false by (symmetry; apply Z.eqb_neq; lia).
  replace (round (state c) <? r) with true by (symmetry; apply Z.ltb_lt; lia).
  reflexivity.
Qed.

Lemma enteredRound_state r c1 :
  round (state c1) < r
  \/ (round (state c1) = r /\ stepCode (step (state c1)) < stepCode RoundStepNewRound) ->
  blockNumber (state (enteredRound r c1)) = blockNumber (state c1)
  /\ round (state (enteredRound r c1)) = r
  /\ step (state (enteredRound r c1)) = RoundStepNewRound
  /\ outbox (enteredRound r c1) = outbox c1
  /\ valSet (enteredRound r c1) = valSet c1
  /\ address (enteredRound r c1) = address c1
  /\ config (enteredRound r c1) = config c1
  /\ block (state (enteredRound r c1)) = block (state c1)
  /\ (r = 0 -> validRound (state (enteredRound r c1)) = -1
               /\ validBlock (state (enteredRound r c1)) = None).
Proof.
  intros Hr. unfold enteredRound. cbv zeta.
  destruct (UpdateRoundStep_sets r RoundStepNewRound (state c1) Hr) as (Ha & Hb & Hc).
  assert (Hblk : block (UpdateRoundStep r RoundStepNewRound (state c1)) = block (state c1))
    by (unfold UpdateRoundStep; by case_match).
  destruct (Z.eqb_spec r 0) as [E|E]; simpl; rewrite ?Ha, ?Hb, ?Hc, ?Hblk;
    repeat split; try done.
Qed.

Lemma enteredRound_not_ahead bn r c1 :
  blockNumber (state c1) = bn ->
  round (state c1) < r
  \/ (round (state c1) = r /\ stepCode (step (state c1)) < stepCode RoundStepNewRound) ->
  aheadOf bn r RoundStepPropose (state (enteredRound r c1)) = false.
Proof.
  intros Hbn Hr.
  destruct (enteredRound_state r c1 Hr) as (Ha & Hb & Hc & _).
  apply enter_guard_false_intro; [congruence|].
  right. rewrite Hb, Hc. split; [done|simpl; lia].
Qed.

(** X5: the start of a height.  From round 0, step NewHeight,
    [startRoundZero] (with the validator set of the core, or the one of the
    backend when the core has none) ends well in round 0 at step Propose or
    later: the validator set and its proposer are untouched, the valid
    block is cleared to [(-1, nil)], the propose timer of round 0 is armed,
    and the node, when it is the proposer, proposes its own block with POL
    round [-1]; another node proposes nothing. *)
Theorem startRoundZero_first_round
    (Validators : Z -> ValidatorSet) (current : option ValidatorSet) (c : core) :
  round (state c) = 0 ->
  step (state c) = RoundStepNewHeight ->
  let vs := match current with
            | None => Validators (blockNumber (state c))
            | Some vs => vs
            end in
  exists c', startRoundZero Validators current c = Ok c'
    /\ valSet c' = vs
    /\ round (state c') = 0
    /\ stepCode RoundStepPropose <= stepCode (step (state c'))
    /\ validRound (state c') = -1 /\ validBlock (state c') = None
    /\ scheduled (outbox c')
       = scheduled (outbox c) ++ [proposeTimer c (blockNumber (state c)) 0]
    /\ sentProposals (outbox c')
       = sentProposals (outbox c)
         ++ (if proposesHere (withValSet vs c)
             then [{| PBlock := block (state c); PRound := 0; POLRound := -1 |}]
             else []).
Proof.
  intros Hr Hs vs. unfold startRoundZero. fold vs.
  set (c0 := withValSet vs c).
  rewrite (enterNewRound_same_round (blockNumber (state c)) 0 c0 eq_refl Hr Hs).
  assert (Hcond : round (state c0) < 0
                  \/ (round (state c0) = 0
                      /\ stepCode (step (state c0)) < stepCode RoundStepNewRound)).
  { right. cbn [state c0 withValSet]. rewrite Hs. split; [done|simpl; lia]. }
  destruct (enteredRound_state 0 c0 Hcond)
    as (Ha & Hb & Hc & Ho & Hv & Had & Hcf & Hblk & Hval).
  destruct (Hval eq_refl) as [Hv1 Hv2].
  pose proof (enteredRound_not_ahead (blockNumber (state c)) 0 c0 eq_refl Hcond) as Hg.
  destruct (enterPropose_passes (blockNumber (state c)) 0 (enteredRound 0 c0))
    as (_ & Hl2 & Hl3).
  { by rewrite Ha. }
  { right. rewrite Hb, Hc. split; [done|simpl; lia]. }
  destruct (enterPropose_frame (blockNumber (state c)) 0 (enteredRound 0 c0))
    as [_ (Hf1 & Hf2 & _)].
  eexists. split; [reflexivity|].
  split; [by rewrite enterPropose_valSet, Hv|].
  split; [done|]. split; [done|].
  split; [by rewrite Hf1|]. split; [by rewrite Hf2|].
  split.
  - rewrite (enterPropose_scheduled _ _ _ Hg), Ho. unfold proposeTimer. by rewrite Hcf.
  - rewrite (enterPropose_sentProposals _ _ _ Hg), Ho. f_equal.
    unfold proposesHere. rewrite Hv, Had.
    unfold defaultDecideProposal. rewrite Hv1, Hblk. reflexivity.
Qed.

Lemma startRoundZero_first_round_witness :
  exists c', startRoundZero (fun _ => fourValidators) None (nodeOf V1 fourValidators freshState)
             = Ok c'
    /\ proposer (valSet c') = Some V1
    /\ sentProposals (outbox c')
       = [{| PBlock := Some blockB; PRound := 0; POLRound := -1 |}].
Proof.
  destruct (startRoundZero_first_round (fun _ => fourValidators) None
              (nodeOf V1 fourValidators freshState) eq_refl eq_refl)
    as (c' & Hc' & Hvs & _ & _ & _ & _ & _ & Hp).
  exists c'. split; [exact Hc'|]. split; [by rewrite Hvs|]. exact Hp.
Defined.

Lemma not_stale_inv ti st :
  ~ stale ti st ->
  staleb ti st = false
  /\ TBlockNumber ti = blockNumber st
  /\ round st <= TRound ti
  /\ (round st = TRound ti -> stepCode (step st) <= stepCode (TStep ti)).
Proof.
  intros Hns.
  assert (Hb : staleb ti st = false).
  { destruct (staleb ti st) eqn:E; [|done]. by apply staleb_spec in E. }
  split; [done|]. unfold stale in Hns.
  repeat split.
  - destruct (Z.eq_dec (TBlockNumber ti) (blockNumber st)); [done|]. exfalso. apply Hns. by left.
  - destruct (Z.le_gt_cases (round st) (TRound ti)); [done|]. exfalso. apply Hns. right; left. lia.
  - intros E. destruct (Z.le_gt_cases (stepCode (step st)) (stepCode (TStep ti))); [done|].
    exfalso. apply Hns. right; right. split; [done|lia].
Qed.

(** X6: the propose timeout makes the node prevote.  A timeout of step
    Propose that is not stale is handled by sending exactly one prevote for
    its round (the locked block, else [H_nil] without a proposal, else the
    proposal's block) and nothing else, and leaves the node in that round
    at step Prevote. *)
Theorem propose_timeout_prevotes (ti : timeoutInfo) (c : core) :
  TStep ti = RoundStepPropose ->
  ~ stale ti (state c) ->
  exists c', handleTimeout ti c = Ok c'
    /\ round (state c') = TRound ti
    /\ step (state c') = RoundStepPrevote
    /\ outbox c' = outbox c ++ [SendVote msgPrevote (prevoteBlock (state c)) (TRound ti)].
Proof.
  intros Hstep Hns.
  destruct (not_stale_inv ti (state c) Hns) as (Hb & Hbn & Hr & Hs).
  assert (Hg : aheadOf (TBlockNumber ti) (TRound ti) RoundStepPrevote (state c) = false).
  { apply enter_guard_false_intro; [done|].
    destruct (Z.eq_dec (round (state c)) (TRound ti)) as [E|E]; [right|left; lia].
    split; [done|]. specialize (Hs E). rewrite Hstep in Hs. simpl in *. lia. }
  unfold handleTimeout. rewrite Hb, Hstep.
  eexists. split; [reflexivity|].
  destruct (enterPrevote_lands (TBlockNumber ti) (TRound ti) c)
    as [E | (_ & _ & _ & Hl1 & Hl2)].
  - exfalso.
    pose proof (enterPrevote_outbox (TBlockNumber ti) (TRound ti) c) as Ho.
    rewrite Hg, E in Ho.
    apply (f_equal length) in Ho. rewrite length_app in Ho. simpl in Ho. lia.
  - split; [done|]. split; [done|].
    by rewrite enterPrevote_outbox, Hg.
Qed.

Lemma propose_timeout_prevotes_witness :
  exists c', handleTimeout staleProposeTimeout proposerCore = Ok c'
    /\ step (state c') = RoundStepPrevote
    /\ outbox c' = [SendVote msgPrevote None 0].
Proof.
  destruct (propose_timeout_prevotes staleProposeTimeout proposerCore eq_refl)
    as (c' & Hc' & _ & Hs & Ho).
  - intros [H | [H | [_ H]]]; [by apply H | simpl in H; lia | simpl in H; lia].
  - exists c'. split; [exact Hc'|]. split; [exact Hs|exact Ho].
Defined.

(** X7: the precommit-wait timeout takes the node to the next round.  A
    timeout of step PrecommitWait for round [r] that is not stale, on a
    node whose validator set has a proposer, enters round [r + 1]: the node
    ends in that round at step Propose or later, with the propose timer of
    round [r + 1] armed, at the same height and with the same validators. *)
Theorem precommit_wait_timeout_enters_next_round (ti : timeoutInfo) (c : core) :
  TStep ti = RoundStepPrecommitWait ->
  ~ stale ti (state c) ->
  - 2 ^ 63 <= TRound ti < 2 ^ 63 - 1 ->
  proposer (valSet c) <> None ->
  exists c', handleTimeout ti c = Ok c'
    /\ round (state c') = TRound ti + 1
    /\ stepCode RoundStepPropose <= stepCode (step (state c'))
    /\ scheduled (outbox c')
       = scheduled (outbox c) ++ [proposeTimer c (blockNumber (state c)) (TRound ti + 1)]
    /\ blockNumber (state c') = blockNumber (state c)
    /\ validators (valSet c') = validators (valSet c).
Proof.
  intros Hstep Hns Hrange Hp.
  destruct (not_stale_inv ti (state c) Hns) as (Hb & Hbn & Hr & _).
  destruct (proposer (valSet c)) as [a|] eqn:Hpa; [|done].
  unfold handleTimeout. rewrite Hb, Hstep, (add64_succ _ Hrange).
  unfold enterPrecommit. rewrite Hbn.
  assert (Hlt : round (state c) < TRound ti + 1) by lia.
  rewrite (enterNewRound_later_round _ _ c a eq_refl Hlt Hpa).
  set (c1 := withValSet (CalcProposer (valSet c) a (TRound ti + 1)) c).
  assert (Hcond : round (state c1) < TRound ti + 1
                  \/ (round (state c1) = TRound ti + 1
                      /\ stepCode (step (state c1)) < stepCode RoundStepNewRound))
    by (by left).
  destruct (enteredRound_state (TRound ti + 1) c1 Hcond)
    as (Ha & Hb' & Hc & Ho & Hv & Had & Hcf & _).
  pose proof (enteredRound_not_ahead (blockNumber (state c)) _ c1 eq_refl Hcond) as Hg.
  destruct (enterPropose_passes (blockNumber (state c)) (TRound ti + 1)
              (enteredRound (TRound ti + 1) c1)) as (_ & Hl2 & Hl3).
  { by rewrite Ha. }
  { right. rewrite Hb', Hc. split; [done|simpl; lia]. }
  eexists. split; [reflexivity|].
  split; [done|]. split; [done|]. split.
  - rewrite (enterPropose_scheduled _ _ _ Hg), Ho. unfold proposeTimer. by rewrite Hcf.
  - destruct (enterNewRound_transition (blockNumber (state c)) (TRound ti + 1) c _
                (enterNewRound_later_round _ _ c a eq_refl Hlt Hpa)) as [Hh _ _ Hvl _ _ _ _ _ _].
    done.
Qed.

Lemma precommit_wait_timeout_enters_next_round_witness :
  exists c', handleTimeout precommitWaitTimeout nilPolkaCore = Ok c'
    /\ round (state c') = 1
    /\ scheduled (outbox c') = [proposeTimer nilPolkaCore 1 1].
Proof.
  destruct (precommit_wait_timeout_enters_next_round precommitWaitTimeout nilPolkaCore
              eq_refl) as (c' & Hc' & Hr & _ & Hs & _ & _).
  - intros [H | [H | [_ H]]]; [by apply H | simpl in H; lia | simpl in H; lia].
  - simpl. lia.
  - discriminate.
  - exists c'. split; [exact Hc'|]. split; [exact Hr|exact Hs].
Defined.

(** ** handlePropose: which proposals are stored *)

Lemma verifyProposal_ok recoverAddress c p msg :
  verifyProposal recoverAddress c p msg = Ok () ->
  exists signer b,
    GetAddressFromSignature recoverAddress msg = Ok signer
    /\ proposer (valSet c) = Some signer
    /\ PBlock p = Some b /\ BHash b <> emptyBlockHash.
Proof.
  unfold verifyProposal. rewrite polround_guard_dead.
  unfold mbind, result_bind, rbind, GetProposerAddress.
  destruct (GetAddressFromSignature recoverAddress msg) as [signer|e|w]; [|done|done].
  destruct (proposer (valSet c)) as [a|]; [|done].
  unfold addr_eqb, hash_eqb.
  destruct (decide (a = signer)) as [->|Hne].
  - rewrite bool_decide_eq_true_2 by done. simpl.
    destruct (PBlock p) as [b|]; [|done].
    destruct (decide (BHash b = emptyBlockHash)) as [E|E].
    + by rewrite bool_decide_eq_true_2.
    + intros _. by exists signer, b.
  - by rewrite bool_decide_eq_false_2.
Qed.

(** X8: which proposals [handlePropose] stores.  When the handler returns
    without error, either the core is exactly as before, or the decoded
    proposal has been stored and nothing else has changed; the second
    happens only when no proposal was stored before, the proposal's block
    is for the node's height and its round is the node's round, the
    signature of the message recovers to the proposer of the validator set,
    and the block's hash is not [H_nil]. *)
Theorem handlePropose_stores_only_verified
    (decodeProposal : list byte -> result Proposal)
    (recoverAddress : list byte -> list byte -> result Address)
    (msg : message) (c c' : core) :
  handlePropose decodeProposal recoverAddress msg c = Ok c' ->
  c' = c
  \/ exists p b signer,
       decodeProposal (Msg msg) = Ok p
       /\ c' = withState (SetProposalReceived (Some p) (state c)) c
       /\ proposalReceived (state c) = None
       /\ PBlock p = Some b
       /\ Number b = blockNumber (state c)
       /\ PRound p = round (state c)
       /\ GetAddressFromSignature recoverAddress msg = Ok signer
       /\ proposer (valSet c) = Some signer
       /\ BHash b <> emptyBlockHash.
Proof.
  unfold handlePropose. unfold mbind at 1, result_bind at 1, rbind at 1.
  destruct (decodeProposal (Msg msg)) as [p|e|w]; [|done|done].
  destruct (PBlock p) as [b|] eqn:Hb; [|done].
  destruct (proposalReceived (state c)) as [old|] eqn:Hold; [intros [= <-]; by left|].
  destruct (Z.eqb_spec (Number b) (blockNumber (state c))) as [Hn|Hn]; simpl;
    [|intros [= <-]; by left].
  destruct (Z.eqb_spec (PRound p) (round (state c))) as [Hr|Hr]; simpl;
    [|intros [= <-]; by left].
  unfold mbind, result_bind, rbind.
  destruct (verifyProposal recoverAddress c p msg) as [[]|e|w] eqn:Hv; [|done|done].
  intros [= <-]. right.
  destruct (verifyProposal_ok _ _ _ _ Hv) as (signer & b' & Hs & Hp & Hb' & Hh).
  assert (b' = b) as -> by congruence.
  exists p, b, signer. repeat split; done.
Qed.


Lemma handlePropose_stores_only_verified_witness :
  exists p b signer,
    decodeAs goodProposal (Msg (proposeMsg V1)) = Ok p
    /\ withState (SetProposalReceived (Some goodProposal) (state roundZeroCore)) roundZeroCore
       = withState (SetProposalReceived (Some p) (state roundZeroCore)) roundZeroCore
    /\ proposalReceived (state roundZeroCore) = None
    /\ PBlock p = Some b
    /\ Number b = blockNumber (state roundZeroCore)
    /\ PRound p = round (state roundZeroCore)
    /\ GetAddressFromSignature (signedBy V1) (proposeMsg V1) = Ok signer
    /\ proposer (valSet roundZeroCore) = Some signer
    /\ BHash b <> emptyBlockHash.
Proof.
  destruct (handlePropose_stores_only_verified (decodeAs goodProposal) (signedBy V1)
              (proposeMsg V1) roundZeroCore
              (withState (SetProposalReceived (Some goodProposal) (state roundZeroCore))
                 roundZeroCore) eq_refl) as [H | H].
  - discriminate H.
  - exact H.
Defined.

(** X9: how [handlePropose] rejects.  For a decoded proposal with a block
    for the node's height and round, on a node without a stored proposal:
    an error of the signature recovery is returned as it is; a signer other
    than the proposer gives [ErrInvalidProposalSignature], whatever the
    block; the proposer's signature on a block whose hash is [H_nil] gives
    [ErrEmptyBlockProposal].  In each case the core is left as it was. *)
Theorem handlePropose_rejections
    (decodeProposal : list byte -> result Proposal)
    (recoverAddress : list byte -> list byte -> result Address)
    (msg : message) (c : core) (p : Proposal) (b : Block) (a : Address) :
  decodeProposal (Msg msg) = Ok p ->
  PBlock p = Some b ->
  proposalReceived (state c) = None ->
  Number b = blockNumber (state c) ->
  PRound p = round (state c) ->
  proposer (valSet c) = Some a ->
  (forall e, GetAddressFromSignature recoverAddress msg = Err e ->
     handlePropose decodeProposal recoverAddress msg c = Err e)
  /\ (forall signer, GetAddressFromSignature recoverAddress msg = Ok signer ->
        signer <> a ->
        handlePropose decodeProposal recoverAddress msg c = Err ErrInvalidProposalSignature)
  /\ (GetAddressFromSignature recoverAddress msg = Ok a ->
      BHash b = emptyBlockHash ->
      handlePropose decodeProposal recoverAddress msg c = Err ErrEmptyBlockProposal).
Proof.
  intros Hd Hb Hold Hn Hr Hp.
  assert (Hhead : handlePropose decodeProposal recoverAddress msg c
                  = rbind (verifyProposal recoverAddress c p msg)
                      (fun _ => Ok (withState (SetProposalReceived (Some p) (state c)) c))).
  { unfold handlePropose. rewrite Hd. simpl. rewrite Hb, Hold, Hn, Hr, !Z.eqb_refl.
    reflexivity. }
  rewrite Hhead. unfold verifyProposal. rewrite polround_guard_dead.
  unfold mbind, result_bind, GetProposerAddress. rewrite Hp, Hb.
  repeat split.
  - intros e ->. reflexivity.
  - intros signer -> Hne. simpl. unfold addr_eqb.
    rewrite bool_decide_eq_false_2 by congruence. reflexivity.
  - intros -> Hh. simpl. unfold addr_eqb, hash_eqb.
    rewrite !bool_decide_eq_true_2 by done. reflexivity.
Qed.


Lemma handlePropose_rejections_witness :
  handlePropose (decodeAs goodProposal) (signedBy V3) (proposeMsg V3) roundZeroCore
  = Err ErrInvalidProposalSignature
  /\ handlePropose (decodeAs emptyHashProposal) (signedBy V1) (proposeMsg V1) roundZeroCore
     = Err ErrEmptyBlockProposal.
Proof.
  split.
  - destruct (handlePropose_rejections (decodeAs goodProposal) (signedBy V3) (proposeMsg V3)
                roundZeroCore goodProposal blockB V1 eq_refl eq_refl eq_refl eq_refl eq_refl
                eq_refl) as (_ & H & _).
    apply (H V3 eq_refl). discriminate.
  - destruct (handlePropose_rejections (decodeAs emptyHashProposal) (signedBy V1)
                (proposeMsg V1) roundZeroCore emptyHashProposal
                {| Number := 1; BHash := emptyBlockHash |} V1
                eq_refl eq_refl eq_refl eq_refl eq_refl eq_refl) as (_ & _ & H).
    apply (H eq_refl eq_refl).
Defined.

(** ** What handling an event keeps *)

Lemma handled_refl c : handled c c.
Proof.
  split; try done.
  - exists []. by rewrite app_nil_r.
  - apply notBefore_refl.
Qed.

Lemma handled_trans c1 c2 c3 : handled c1 c2 -> handled c2 c3 -> handled c1 c3.
Proof.
  intros [h1 a1 g1 v1 (o1 & Ho1) n1] [h2 a2 g2 v2 (o2 & Ho2) n2].
  split; try congruence.
  - exists (o1 ++ o2). by rewrite Ho2, Ho1, app_assoc.
  - by eapply notBefore_trans.
Qed.

Lemma transition_handled c c' : transition c c' -> handled c c'.
Proof.
  intros [h a g v _ _ _ _ (o & Ho & _) n]. split; try done. by exists o.
Qed.

(** A change of the round state that keeps height, round and step. *)
Lemma handled_state st' c :
  blockNumber st' = blockNumber (state c) -> round st' = round (state c) ->
  step st' = step (state c) ->
  handled c (withState st' c).
Proof.
  intros Hb Hr Hs. split; simpl; try done.
  - exists []. by rewrite app_nil_r.
  - right. rewrite Hr, Hs. split; [done|lia].
Qed.

Lemma regossip_handled msg c : handled c (regossip msg c).
Proof.
  unfold regossip. case_match; [apply handled_refl|].
  split; simpl; try done.
  - by exists [Gossip msg].
  - apply notBefore_refl.
Qed.

Lemma transition_wellFormed c c' :
  transition c c' -> wellFormed (state c) -> wellFormed (state c').
Proof.
  intros [_ _ _ _ [Hl1 Hl2] Hp _ _ _ _] [Hlock Hprop].
  unfold wellFormed, lockHasBlock, proposalHasBlock in *.
  rewrite Hl1, Hl2, Hp. done.
Qed.

Lemma unlockOnPOL_inv vr hmaj st st' :
  unlockOnPOL vr hmaj st = Ok st' -> st' = st \/ st' = Unlock st.
Proof.
  unfold unlockOnPOL. repeat case_match; intros [= <-]; (by left) || (by right).
Qed.

Lemma updateValid_inv vr hmaj st st' :
  updateValid vr hmaj st = Ok st' ->
  st' = st \/ st' = SetProposalReceived None st
  \/ exists p pb, proposalReceived st = Some p /\ PBlock p = Some pb
                  /\ st' = SetValidRoundAndBlock vr (Some pb) st.
Proof.
  unfold updateValid.
  destruct (negb (hash_eqb hmaj emptyBlockHash) && (validRound st <? vr) && (vr =? round st));
    [|intros [= <-]; by left].
  destruct (proposalReceived st) as [p|]; [|intros [= <-]; right; by left].
  destruct (PBlock p) as [pb|] eqn:Hpb; [|done].
  destruct (hash_eqb (BHash pb) hmaj); intros [= <-].
  - right; right. by exists p, pb.
  - right; by left.
Qed.

Lemma unlockOnPOL_turn vr hmaj st st' :
  unlockOnPOL vr hmaj st = Ok st' ->
  sameTurn st st' /\ (wellFormed st -> wellFormed st').
Proof.
  intros H. destruct (unlockOnPOL_inv _ _ _ _ H) as [-> | ->]; [done|].
  split; [done|]. intros [_ Hp]. split; [done|exact Hp].
Qed.

Lemma updateValid_turn vr hmaj st st' :
  updateValid vr hmaj st = Ok st' ->
  sameTurn st st' /\ (wellFormed st -> wellFormed st').
Proof.
  intros H.
  destruct (updateValid_inv _ _ _ _ H) as [-> | [-> | (p & pb & Hp & Hpb & ->)]];
    [done| |done].
  split; [done|]. intros [Hl _]. split; [exact Hl|]. intros p. simpl. done.
Qed.

(** The block run on a majority touches the lock, the valid block and the
    received proposal only, and keeps the round state well formed. *)
Lemma onPrevoteMajority_inv vr votes c c1 :
  onPrevoteMajority vr votes c = Ok c1 ->
  exists st2, c1 = withState st2 c
    /\ sameTurn (state c) st2
    /\ (wellFormed (state c) -> wellFormed st2).
Proof.
  unfold onPrevoteMajority.
  destruct (TwoThirdMajority (Quorum (valSet c)) votes) as [hmaj|].
  - unfold mbind, result_bind, rbind.
    destruct (unlockOnPOL vr hmaj (state c)) as [st1|e|w] eqn:H1; [|done|done].
    destruct (updateValid vr hmaj st1) as [st2|e|w] eqn:H2; [|done|done].
    intros [= <-]. exists st2. split; [done|].
    destruct (unlockOnPOL_turn _ _ _ _ H1) as [(Ha1 & Hb1 & Hc1 & Hd1 & He1) Hw1].
    destruct (updateValid_turn _ _ _ _ H2) as [(Ha2 & Hb2 & Hc2 & Hd2 & He2) Hw2].
    split; [unfold sameTurn; repeat split; congruence|]. intros Hwf. by apply Hw2, Hw1.
  - intros [= <-]. exists (state c). split; [by destruct c|]. done.
Qed.

Lemma handlePrevote_inv decodeVote msg c c' :
  handlePrevote decodeVote msg c = Ok c' ->
  c' = c
  \/ exists vote h st1 votes c1,
       decodeVote (Msg msg) = Ok vote /\ VBlockHash vote = Some h
       /\ VBlockNumber vote = blockNumber (state c)
       /\ addPrevote (MAddress msg) (VRound vote) h (valSet c) (state c) = Ok (true, st1)
       /\ prevotes st1 !! VRound vote = Some votes
       /\ onPrevoteMajority (VRound vote) votes (withState st1 c) = Ok c1
       /\ prevoteTransitions (VRound vote) votes (regossip msg c1) = Ok c'.
Proof.
  unfold handlePrevote. unfold mbind at 1, result_bind at 1, rbind at 1.
  destruct (decodeVote (Msg msg)) as [vote|e|w] eqn:Hd; [|done|done].
  destruct (VBlockHash vote) as [h|] eqn:Hh; [|done].
  destruct (Z.eqb_spec (VBlockNumber vote) (blockNumber (state c))) as [Hbn|Hbn]; simpl;
    [|intros [= <-]; by left].
  unfold mbind at 1, result_bind at 1, rbind at 1.
  destruct (addPrevote (MAddress msg) (VRound vote) h (valSet c) (state c))
    as [[added st1]|e|w] eqn:Hadd; [|done|done].
  destruct added; simpl; [|intros [= <-]; by left].
  unfold GetPrevotesByRound.
  destruct (prevotes st1 !! VRound vote) as [votes|] eqn:Hv; [|done].
  unfold mbind, result_bind, rbind.
  destruct (onPrevoteMajority (VRound vote) votes (withState st1 c)) as [c1|e|w] eqn:Hm;
    [|done|done].
  intros Ht. right. exists vote, h, st1, votes, c1. done.
Qed.

Lemma addPrecommit_added a r h vs st st1 :
  addPrecommit a r h vs st = Ok (true, st1) ->
  exists votes, st1 = setPrecommits (<[r := votes]> (precommits st)) st.
Proof.
  unfold addPrecommit, mbind, result_bind, rbind.
  destruct (recordVote vs a h (default [] (precommits st !! r))) as [[added votes]|e|w];
    [|done|done].
  destruct added; intros [= <-]. by exists votes.
Qed.

Lemma prevoteTransitions_transition vr votes c c' :
  prevoteTransitions vr votes c = Ok c' -> transition c c'.
Proof.
  unfold prevoteTransitions.
  repeat case_match; intros Hres;
    try (injection Hres as <-);
    try apply transition_refl;
    try (by eapply enterNewRound_transition);
    try (by eapply enterPrevoteWait_transition);
    try apply enterPrevote_transition.
Qed.

Lemma handlePrevote_handled decodeVote msg c c' :
  handlePrevote decodeVote msg c = Ok c' ->
  handled c c' /\ (wellFormed (state c) -> wellFormed (state c')).
Proof.
  intros Hres.
  destruct (handlePrevote_inv _ _ _ _ Hres)
    as [-> | (vote & h & st1 & votes & c1 & _ & _ & _ & Hadd & _ & Hm & Ht)];
    [split; [apply handled_refl|done]|].
  destruct (addPrevote_added _ _ _ _ _ _ Hadd) as [vs' ->].
  destruct (onPrevoteMajority_inv _ _ _ _ Hm) as (st2 & -> & (Hb & Hr & Hs & _ & _) & Hwf).
  apply prevoteTransitions_transition in Ht.
  split.
  - eapply handled_trans; [|apply transition_handled, Ht].
    eapply handled_trans; [|apply regossip_handled].
    apply (handled_state st2 c); simpl in *; done.
  - intros Hwf0. apply (transition_wellFormed _ _ Ht).
    rewrite regossip_state. simpl. apply Hwf. exact Hwf0.
Qed.

Lemma handlePrecommit_handled decodeVote msg c c' :
  handlePrecommit decodeVote msg c = Ok c' ->
  handled c c' /\ (wellFormed (state c) -> wellFormed (state c')).
Proof.
  unfold handlePrecommit. unfold mbind at 1, result_bind at 1, rbind at 1.
  destruct (decodeVote (Msg msg)) as [vote|e|w] eqn:Hd; [|done|done].
  destruct (VBlockHash vote) as [h|] eqn:Hh; [|done].
  destruct (negb (VBlockNumber vote =? blockNumber (state c)));
    [intros [= <-]; split; [apply handled_refl|done]|].
  unfold mbind at 1, result_bind at 1, rbind at 1.
  destruct (addPrecommit (MAddress msg) (VRound vote) h (valSet c) (state c))
    as [[added st1]|e|w] eqn:Hadd; [|done|done].
  destruct added; simpl negb; cbv iota;
    [|intros [= <-]; split; [apply handled_refl|done]].
  destruct (addPrecommit_added _ _ _ _ _ _ Hadd) as [vs' ->].
  set (st1 := setPrecommits (<[VRound vote:=vs']> (precommits (state c))) (state c)).
  set (c1 := regossip msg (withState st1 c)).
  assert (H1 : handled c c1 /\ (wellFormed (state c) -> wellFormed (state c1))).
  { split.
    - eapply handled_trans; [|apply regossip_handled]. by apply (handled_state st1 c).
    - subst c1. rewrite regossip_state. done. }
  destruct H1 as [H1 Hwf1].
  assert (Hfin : forall c2, transition c1 c2 ->
            handled c c2 /\ (wellFormed (state c) -> wellFormed (state c2))).
  { intros c2 Ht. split.
    - eapply handled_trans; [exact H1 | by apply transition_handled].
    - intros Hwf. apply (transition_wellFormed _ _ Ht), Hwf1, Hwf. }
  cbv zeta. destruct (GetPrecommitsByRound st1 (VRound vote)) as [votes|]; [|done].
  destruct (TwoThirdMajority (Quorum (valSet c1)) votes) as [bh|].
  - unfold mbind, result_bind, rbind.
    destruct (enterNewRound (blockNumber st1) (VRound vote) c1) as [c2|e|w] eqn:Hn;
      [|done|done].
    apply enterNewRound_transition in Hn. unfold enterPrecommit.
    case_match; intros [= <-]; apply Hfin;
      (eapply transition_trans; [exact Hn|]);
      [apply enterCommit_transition | apply enterPrecommitWait_transition].
  - case_match; [|intros [= <-]; apply Hfin, transition_refl].
    unfold mbind, result_bind, rbind.
    destruct (enterNewRound (blockNumber st1) (VRound vote) c1) as [c2|e|w] eqn:Hn;
      [|done|done].
    apply enterNewRound_transition in Hn.
    intros [= <-]. apply Hfin.
    eapply transition_trans; [exact Hn | apply enterPrecommitWait_transition].
Qed.

Lemma handlePropose_cases decodeProposal recoverAddress msg c c' :
  handlePropose decodeProposal recoverAddress msg c = Ok c' ->
  c' = c
  \/ exists p b, PBlock p = Some b
                 /\ c' = withState (SetProposalReceived (Some p) (state c)) c.
Proof.
  unfold handlePropose. unfold mbind at 1, result_bind at 1, rbind at 1.
  destruct (decodeProposal (Msg msg)) as [p|e|w]; [|done|done].
  destruct (PBlock p) as [b|] eqn:Hb; [|done].
  destruct (proposalReceived (state c)); [intros [= <-]; by left|].
  case_match; [intros [= <-]; by left|].
  unfold mbind, result_bind, rbind.
  destruct (verifyProposal recoverAddress c p msg); [|done|done].
  intros [= <-]. right. by exists p, b.
Qed.

Lemma handlePropose_handled decodeProposal recoverAddress msg c c' :
  handlePropose decodeProposal recoverAddress msg c = Ok c' ->
  handled c c' /\ (wellFormed (state c) -> wellFormed (state c')).
Proof.
  intros Hres.
  destruct (handlePropose_cases _ _ _ _ _ Hres) as [-> | (p & b & Hb & ->)];
    [split; [apply handled_refl|done]|].
  split; [by apply handled_state|].
  intros [Hl Hp]. split; [exact Hl|].
  intros p' [= <-]. by rewrite Hb.
Qed.

Lemma handleTimeout_transition ti c c' :
  handleTimeout ti c = Ok c' -> transition c c'.
Proof.
  unfold handleTimeout. case_match; [intros [= <-]; apply transition_refl|].
  unfold enterPrecommit.
  destruct (TStep ti); try done; intros Hres;
    try (injection Hres as <-);
    try (by eapply enterNewRound_transition);
    try apply enterPropose_transition;
    try apply enterPrevote_transition;
    try apply transition_refl.
Qed.

(** X10: what handling an event keeps.  Whenever [handleMsg] (a proposal, a
    prevote or a precommit) or [handleTimeout] ends without error, the
    height, the node's address, the configuration and the list of
    validators are those of before, the outbox has only been extended,
    (round, step) has not gone back, and a well-formed round state (a lock
    with its block, a stored proposal with its block) is still well
    formed. *)
Theorem handlers_keep_the_node
    (decodeProposal : list byte -> result Proposal)
    (decodeVote : list byte -> result Vote)
    (recoverAddress : list byte -> list byte -> result Address)
    (c : core) :
  (forall msg c',
     handleMsg decodeProposal decodeVote recoverAddress msg c = Ok c' ->
     handled c c' /\ (wellFormed (state c) -> wellFormed (state c')))
  /\ (forall ti c',
        handleTimeout ti c = Ok c' ->
        handled c c' /\ (wellFormed (state c) -> wellFormed (state c'))).
Proof.
  split.
  - intros msg c'. unfold handleMsg. repeat case_match; [| | |done].
    + apply handlePropose_handled.
    + apply handlePrevote_handled.
    + apply handlePrecommit_handled.
  - intros ti c' Hres. apply handleTimeout_transition in Hres.
    split; [by apply transition_handled | by apply transition_wellFormed].
Qed.

(** ** Votes that are dropped, votes that are passed on *)

(** X11: votes the handlers drop or refuse.  An error of the vote decoder
    is returned as it is by [handlePrevote] and [handlePrecommit]; a decoded
    vote (with a block hash) for a height other than the node's is dropped:
    the handler returns no error and the core is exactly as before. *)
Theorem vote_handlers_drop_other_heights
    (decodeVote : list byte -> result Vote) (msg : message) (c : core) :
  (forall e, decodeVote (Msg msg) = Err e ->
     handlePrevote decodeVote msg c = Err e /\ handlePrecommit decodeVote msg c = Err e)
  /\ (forall vote h, decodeVote (Msg msg) = Ok vote -> VBlockHash vote = Some h ->
        VBlockNumber vote <> blockNumber (state c) ->
        handlePrevote decodeVote msg c = Ok c /\ handlePrecommit decodeVote msg c = Ok c).
Proof.
  split.
  - intros e He. unfold handlePrevote, handlePrecommit. rewrite He. done.
  - intros vote h Hd Hh Hne. unfold handlePrevote, handlePrecommit.
    rewrite Hd. simpl. rewrite Hh.
    replace (VBlockNumber vote =? blockNumber (state c)) with false
      by (symmetry; by apply Z.eqb_neq).
    done.
Qed.

Lemma transition_gossiped c c' :
  transition c c' -> gossiped (outbox c') = gossiped (outbox c).
Proof.
  intros [_ _ _ _ _ _ _ _ (l & -> & Hl) _]. by rewrite gossiped_app, Hl, app_nil_r.
Qed.

Lemma regossip_gossiped msg c :
  gossiped (outbox (regossip msg c))
  = gossiped (outbox c) ++ (if addr_eqb (MAddress msg) (address c) then [] else [msg]).
Proof.
  unfold regossip. case_match; simpl; [by rewrite app_nil_r|].
  by rewrite gossiped_app.
Qed.

Lemma handlePrecommit_inv decodeVote msg c c' :
  handlePrecommit decodeVote msg c = Ok c' ->
  c' = c
  \/ exists vote h st1,
       decodeVote (Msg msg) = Ok vote /\ VBlockHash vote = Some h
       /\ VBlockNumber vote = blockNumber (state c)
       /\ addPrecommit (MAddress msg) (VRound vote) h (valSet c) (state c) = Ok (true, st1)
       /\ transition (regossip msg (withState st1 c)) c'.
Proof.
  unfold handlePrecommit. unfold mbind at 1, result_bind at 1, rbind at 1.
  destruct (decodeVote (Msg msg)) as [vote|e|w] eqn:Hd; [|done|done].
  destruct (VBlockHash vote) as [h|] eqn:Hh; [|done].
  destruct (Z.eqb_spec (VBlockNumber vote) (blockNumber (state c))) as [Hbn|Hbn]; simpl negb;
    cbv iota; [|intros [= <-]; by left].
  unfold mbind at 1, result_bind at 1, rbind at 1.
  destruct (addPrecommit (MAddress msg) (VRound vote) h (valSet c) (state c))
    as [[added st1]|e|w] eqn:Hadd; [|done|done].
  destruct added; simpl negb; cbv iota; [|intros [= <-]; by left].
  intros Hres. right. exists vote, h, st1.
  split; [done|]. split; [done|]. split; [done|]. split; [done|].
  revert Hres. cbv zeta.
  set (c1 := regossip msg (withState st1 c)).
  destruct (GetPrecommitsByRound st1 (VRound vote)) as [votes|]; [|done].
  destruct (TwoThirdMajority (Quorum (valSet c1)) votes) as [bh|].
  - unfold mbind, result_bind, rbind.
    destruct (enterNewRound (blockNumber st1) (VRound vote) c1) as [c2|e|w] eqn:Hn;
      [|done|done].
    apply enterNewRound_transition in Hn. unfold enterPrecommit.
    case_match; intros [= <-];
      (eapply transition_trans; [exact Hn|]);
      [apply enterCommit_transition | apply enterPrecommitWait_transition].
  - case_match; [|intros [= <-]; apply transition_refl].
    unfold mbind, result_bind, rbind.
    destruct (enterNewRound (blockNumber st1) (VRound vote) c1) as [c2|e|w] eqn:Hn;
      [|done|done].
    apply enterNewRound_transition in Hn.
    intros [= <-].
    eapply transition_trans; [exact Hn | apply enterPrecommitWait_transition].
Qed.

Lemma handlePrevote_gossiped decodeVote msg c c' :
  handlePrevote decodeVote msg c = Ok c' ->
  c' = c
  \/ gossiped (outbox c')
     = gossiped (outbox c) ++ (if addr_eqb (MAddress msg) (address c) then [] else [msg]).
Proof.
  intros Hres.
  destruct (handlePrevote_inv _ _ _ _ Hres)
    as [-> | (vote & h & st1 & votes & c1 & _ & _ & _ & _ & _ & Hm & Ht)]; [by left|].
  right.
  destruct (onPrevoteMajority_inv _ _ _ _ Hm) as (st2 & -> & _ & _).
  apply prevoteTransitions_transition, transition_gossiped in Ht.
  by rewrite Ht, regossip_gossiped.
Qed.

Lemma handlePrecommit_gossiped decodeVote msg c c' :
  handlePrecommit decodeVote msg c = Ok c' ->
  c' = c
  \/ gossiped (outbox c')
     = gossiped (outbox c) ++ (if addr_eqb (MAddress msg) (address c) then [] else [msg]).
Proof.
  intros Hres.
  destruct (handlePrecommit_inv _ _ _ _ Hres)
    as [-> | (vote & h & st1 & _ & _ & _ & _ & Ht)]; [by left|].
  right. apply transition_gossiped in Ht. by rewrite Ht, regossip_gossiped.
Qed.

(** X12: which votes are passed on.  When [handlePrevote] or
    [handlePrecommit] ends without error, the messages handed to the gossip
    transport are those of before, followed by at most the message just
    handled.  The node's own vote is never passed on; a vote of another
    sender is passed on exactly once whenever the handler changed the core
    (the vote was new), and not at all when the core is as before (the vote
    was dropped or known). *)
Theorem votes_are_regossiped_once
    (decodeVote : list byte -> result Vote) (msg : message) (c c' : core) :
  handlePrevote decodeVote msg c = Ok c' \/ handlePrecommit decodeVote msg c = Ok c' ->
  (MAddress msg = address c -> gossiped (outbox c') = gossiped (outbox c))
  /\ (c' = c -> gossiped (outbox c') = gossiped (outbox c))
  /\ (MAddress msg <> address c -> c' <> c ->
      gossiped (outbox c') = gossiped (outbox c) ++ [msg]).
Proof.
  intros Hres.
  assert (H : c' = c
              \/ gossiped (outbox c')
                 = gossiped (outbox c)
                   ++ (if addr_eqb (MAddress msg) (address c) then [] else [msg])).
  { destruct Hres as [Hres|Hres];
      [by eapply handlePrevote_gossiped | by eapply handlePrecommit_gossiped]. }
  unfold addr_eqb in H.
  split; [|split].
  - intros E. destruct H as [-> | ->]; [done|].
    by rewrite bool_decide_eq_true_2, app_nil_r.
  - by intros ->.
  - intros Hne Hc. destruct H as [-> | ->]; [done|].
    by rewrite bool_decide_eq_false_2.
Qed.

Lemma votes_are_regossiped_once_witness :
  exists c', handlePrevote (decodeAs polVote) (prevoteMsg V4) polScenarioCore = Ok c'
    /\ gossiped (outbox c') = [prevoteMsg V4].
Proof.
  destruct (handlePrevote (decodeAs polVote) (prevoteMsg V4) polScenarioCore)
    as [c'|e|w] eqn:Hres; [|by vm_compute in Hres..].
  exists c'. split; [done|].
  destruct (votes_are_regossiped_once (decodeAs polVote) (prevoteMsg V4) polScenarioCore c'
              (or_introl Hres)) as (_ & _ & H).
  apply H.
  - discriminate.
  - intros ->. vm_compute in Hres. discriminate Hres.
Defined.

(** ** The validator-set provider, again *)

(** X13: what [GetValSet] returns beside an error, and on success.  With
    an error the set is the empty round-robin set tagged with the height;
    without one the set holds exactly the decoded addresses, in order, with
    the round-robin policy, the same height tag, and the first address as
    proposer. *)
Theorem GetValSet_result_shape
    (Header : Type) (GetHeaderByNumber : N -> option Header)
    (headerHash : Header -> Hash)
    (ExtractTendermintExtra : Header -> error + TendermintExtra)
    (decodeAddresses : list byte -> error + list Address)
    (v : StakingValidator) (number : Z) :
  let res := GetValSet Header GetHeaderByNumber headerHash ExtractTendermintExtra
               decodeAddresses v number in
  (forall e, res.2 = Some e -> res.1 = NewSet [] RoundRobin (bigInt64 number))
  /\ (res.2 = None ->
      exists header extra,
        GetHeaderByNumber (GetCheckpointNumber (Epoch v) (bigUint64 number)) = Some header
        /\ ExtractTendermintExtra header = inr extra
        /\ decodeAddresses (ValidatorAdds extra) = inr (validators res.1)
        /\ policy res.1 = RoundRobin
        /\ height res.1 = bigInt64 number
        /\ proposer res.1 = head (validators res.1)).
Proof.
  cbv zeta. unfold GetValSet.
  destruct (GetHeaderByNumber (GetCheckpointNumber (Epoch v) (bigUint64 number)))
    as [header|]; [|split; [done|done]].
  destruct (hash_eqb (headerHash header) emptyBlockHash); [split; [done|done]|].
  destruct (ExtractTendermintExtra header) as [err|extra] eqn:He; [split; [done|done]|].
  destruct (length (ValidatorAdds extra) =? 0)%nat; [split; [done|done]|].
  destruct (decodeAddresses (ValidatorAdds extra)) as [err|addrs] eqn:Hd;
    [split; [done|done]|].
  split; [done|]. intros _. exists header, extra. simpl. by rewrite Hd.
Qed.

(** X14: the validators depend on the height through its checkpoint only.
    Two heights with the same checkpoint number get the same error, the
    same validators, the same policy and the same proposer from
    [GetValSet]; the sets differ at most in their height tag. *)
Theorem GetValSet_same_checkpoint
    (Header : Type) (GetHeaderByNumber : N -> option Header)
    (headerHash : Header -> Hash)
    (ExtractTendermintExtra : Header -> error + TendermintExtra)
    (decodeAddresses : list byte -> error + list Address)
    (v : StakingValidator) (n1 n2 : Z) :
  GetCheckpointNumber (Epoch v) (bigUint64 n1) = GetCheckpointNumber (Epoch v) (bigUint64 n2) ->
  let res1 := GetValSet Header GetHeaderByNumber headerHash ExtractTendermintExtra
                decodeAddresses v n1 in
  let res2 := GetValSet Header GetHeaderByNumber headerHash ExtractTendermintExtra
                decodeAddresses v n2 in
  res1.2 = res2.2
  /\ validators res1.1 = validators res2.1
  /\ policy res1.1 = policy res2.1
  /\ proposer res1.1 = proposer res2.1.
Proof.
  intros Hc. cbv zeta. unfold GetValSet. rewrite Hc.
  repeat case_match; done.
Qed.

Lemma GetValSet_same_checkpoint_witness :
  validators (GetValSet (list byte) sampleChain (fun h => h) sampleExtra sampleAddresses
                {| Epoch := 1024 |} 1500).1
  = validators (GetValSet (list byte) sampleChain (fun h => h) sampleExtra sampleAddresses
                  {| Epoch := 1024 |} 2047).1.
Proof.
  apply (GetValSet_same_checkpoint (list byte) sampleChain (fun h => h) sampleExtra
           sampleAddresses {| Epoch := 1024 |} 1500 2047 eq_refl).
Defined.

(** ** ExtractValidators *)

Lemma copyInto_length n src : length (copyInto n src) = n.
Proof.
  unfold copyInto. rewrite length_app, repeat_length.
  pose proof (length_take_le src n). rewrite length_take. lia.
Qed.

Lemma copyInto_whole (a rest : list byte) :
  copyInto (length a) (a ++ rest) = a.
Proof.
  unfold copyInto. rewrite take_app_length, Nat.sub_diag. simpl. by rewrite app_nil_r.
Qed.

Lemma ExtractValidators_cons (a rest : list byte) :
  length a = AddressLength ->
  ExtractValidators (a ++ rest) = a :: ExtractValidators rest.
Proof.
  intros Ha. unfold ExtractValidators.
  rewrite length_app, Ha.
  replace (AddressLength + length rest)%nat with (1 * AddressLength + length rest)%nat by lia.
  rewrite Nat.div_add_l by (unfold AddressLength; lia).
  simpl seq. rewrite <- seq_shift. simpl map. rewrite map_map. f_equal.
  - simpl drop. rewrite <- Ha. apply copyInto_whole.
  - apply map_ext. intros i. f_equal.
    replace (S i * AddressLength)%nat with (length a + i * AddressLength)%nat by lia.
    by rewrite drop_app_add.
Qed.

Lemma ExtractValidators_short (tail : list byte) :
  (length tail < AddressLength)%nat -> ExtractValidators tail = [].
Proof.
  intros Hlt. unfold ExtractValidators. by rewrite Nat.div_small.
Qed.

(** X15: the shape of [ExtractValidators].  The result has one address for
    each whole group of twenty bytes of the input, every address is twenty
    bytes long, and an input of fewer than twenty bytes (the empty one
    included) gives no address. *)
Theorem ExtractValidators_shape (extraData : list byte) :
  length (ExtractValidators extraData) = (length extraData / AddressLength)%nat
  /\ Forall (fun a => length a = AddressLength) (ExtractValidators extraData)
  /\ ((length extraData < AddressLength)%nat -> ExtractValidators extraData = []).
Proof.
  split; [|split].
  - unfold ExtractValidators. by rewrite length_map, length_seq.
  - unfold ExtractValidators. apply Forall_map, Forall_forall. intros i _.
    apply copyInto_length.
  - apply ExtractValidators_short.
Qed.

(** X16: [ExtractValidators] reads back a packed list of addresses.  For
    addresses of twenty bytes each, the extraction from their
    concatenation, followed or not by fewer than twenty more bytes, is the
    list itself: the trailing bytes are ignored. *)
Theorem ExtractValidators_concat (addrs : list Address) (tail : list byte) :
  Forall (fun a => length a = AddressLength) addrs ->
  (length tail < AddressLength)%nat ->
  ExtractValidators (concat addrs ++ tail) = addrs.
Proof.
  intros Hall Htail. induction Hall as [|a addrs Ha Hall IH]; simpl.
  - by apply ExtractValidators_short.
  - rewrite <- app_assoc, ExtractValidators_cons by done. by rewrite IH.
Qed.

Lemma ExtractValidators_concat_witness :
  ExtractValidators (concat [V1; V2; V3] ++ [x07; x08]) = [V1; V2; V3].
Proof.
  apply (ExtractValidators_concat [V1; V2; V3] [x07; x08]).
  - repeat constructor.
  - simpl. unfold AddressLength. lia.
Defined.

(** ** What a signature covers *)


Lemma unsigned_representable m : representable m -> representable (unsigned m).
Proof.
  intros (Hc & Ha & Hfit). unfold representable, unsigned. simpl.
  repeat split; try done. unfold RLP.lenN in *. simpl length. lia.
Qed.

Lemma EncodeRLP_inj m1 m2 :
  representable m1 -> representable m2 -> EncodeRLP m1 = EncodeRLP m2 -> m1 = m2.
Proof.
  intros H1 H2 E.
  pose proof (decode_encode_app m1 [] H1) as D1.
  pose proof (decode_encode_app m2 [] H2) as D2.
  rewrite E in D1. rewrite D1 in D2. by injection D2.
Qed.

(** X17: what the signed payload covers.  [PayLoadWithoutSignature] is the
    encoding of the message with an empty signature: it decodes to that
    message, it does not depend on the signature, and two messages have the
    same signed payload exactly when they agree in code, payload, sender
    address and committed seal.  The encoding itself is injective. *)
Theorem signed_payload_covers_fields (m1 m2 : message) :
  representable m1 -> representable m2 ->
  DecodeRLP (PayLoadWithoutSignature m1) = Ok (unsigned m1, [])
  /\ (PayLoadWithoutSignature m1 = PayLoadWithoutSignature m2
      <-> Code m1 = Code m2 /\ Msg m1 = Msg m2 /\ MAddress m1 = MAddress m2
          /\ CommittedSeal m1 = CommittedSeal m2)
  /\ (EncodeRLP m1 = EncodeRLP m2 -> m1 = m2).
Proof.
  intros H1 H2.
  assert (Hp : forall m, PayLoadWithoutSignature m = EncodeRLP (unsigned m)) by done.
  split; [|split].
  - rewrite Hp, <- (app_nil_r (EncodeRLP (unsigned m1))).
    by apply decode_encode_app, unsigned_representable.
  - rewrite !Hp. split.
    + intros E. apply EncodeRLP_inj in E; try by apply unsigned_representable.
      unfold unsigned in E. by injection E.
    + intros (Ec & Em & Ea & Es). unfold unsigned. by rewrite Ec, Em, Ea, Es.
  - by apply EncodeRLP_inj.
Qed.


Lemma signed_payload_covers_fields_witness :
  PayLoadWithoutSignature sampleMessage = PayLoadWithoutSignature resignedMessage.
Proof.
  assert (H1 : representable sampleMessage) by (unfold representable; repeat split).
  assert (H2 : representable resignedMessage) by (unfold representable; repeat split).
  apply (proj1 (proj2 (signed_payload_covers_fields sampleMessage resignedMessage H1 H2))).
  repeat split.
Defined.

(** ** The backend's transport *)

Lemma targetsOf_spec Peer (sb : Backend.backend Peer) (valSet : ValidatorSet) (a : Address) :
  a ∈ Backend.targetsOf Peer sb valSet <-> a ∈ validators valSet /\ a <> Backend.address Peer sb.
Proof.
  unfold Backend.targetsOf. rewrite elem_of_list_to_set, list_elem_of_filter. tauto.
Qed.

(** X18: whom [Gossip] sends to.  The targets handed to the broadcaster are
    exactly the validators other than the node itself.  With a broadcaster,
    [Gossip] returns no error and sends the payload, unchanged, once to
    each peer the broadcaster finds for these targets; when there is no
    such validator (an empty set, or the node alone) the broadcaster is not
    asked and nothing is sent. *)
Theorem Gossip_sends_to_other_validators
    (Peer : Type) (sb : Backend.backend Peer) (valSet : ValidatorSet) (payload : list byte)
    (findPeers : gset Address -> list Peer) :
  Backend.broadcaster Peer sb = Some findPeers ->
  (forall a, a ∈ Backend.targetsOf Peer sb valSet
             <-> a ∈ validators valSet /\ a <> Backend.address Peer sb)
  /\ ((exists a, a ∈ validators valSet /\ a <> Backend.address Peer sb) ->
      Backend.Gossip Peer sb valSet payload
      = (None, map (fun p => Backend.PeerSend Peer p payload)
                 (findPeers (Backend.targetsOf Peer sb valSet))))
  /\ ((forall a, a ∈ validators valSet -> a = Backend.address Peer sb) ->
      Backend.Gossip Peer sb valSet payload = (None, [])).
Proof.
  intros Hb. split; [apply targetsOf_spec|]. unfold Backend.Gossip. rewrite Hb. split.
  - intros (a & Ha & Hne).
    rewrite bool_decide_eq_true_2; [done|].
    assert (Hin : a ∈ Backend.targetsOf Peer sb valSet) by (by apply targetsOf_spec).
    destruct (decide (size (Backend.targetsOf Peer sb valSet) = 0%nat)) as [E|E]; [|lia].
    apply size_empty_inv in E. apply E in Hin. by apply not_elem_of_empty in Hin.
  - intros Hall.
    rewrite bool_decide_eq_false_2; [done|].
    assert (E : Backend.targetsOf Peer sb valSet ≡ ∅).
    { apply elem_of_equiv_empty. intros a Ha. apply targetsOf_spec in Ha as [Ha Hne].
      by apply Hne, Hall. }
    rewrite E, size_empty. lia.
Qed.

Lemma Gossip_sends_to_other_validators_witness :
  Backend.Gossip nat {| Backend.address := V1; Backend.broadcaster := Some (fun _ => [7%nat; 9%nat]) |}
    fourValidators [x01]
  = (None, [Backend.PeerSend nat 7%nat [x01]; Backend.PeerSend nat 9%nat [x01]]).
Proof.
  apply (Gossip_sends_to_other_validators nat
           {| Backend.address := V1; Backend.broadcaster := Some (fun _ => [7%nat; 9%nat]) |}
           fourValidators [x01] (fun _ => [7%nat; 9%nat]) eq_refl).
  exists V2. split; [|discriminate].
  apply list_elem_of_In. simpl. tauto.
Defined.

(** X19: [Broadcast] and the missing broadcaster.  Without a broadcaster
    [Gossip] and [Broadcast] return [ErrNoBroadcaster] and do nothing at
    all: the message is not even posted to the node itself; [FindPeers],
    which does not test the broadcaster, panics.  With one,
    [Broadcast] does what [Gossip] does and then posts the payload to the
    node itself, exactly once, whatever the validators. *)
Theorem Broadcast_posts_to_self_after_gossip
    (Peer : Type) (sb : Backend.backend Peer) (valSet : ValidatorSet) (payload : list byte) :
  (Backend.broadcaster Peer sb = None ->
   Backend.Gossip Peer sb valSet payload = (Some Backend.ErrNoBroadcaster, [])
   /\ Backend.Broadcast Peer sb valSet payload = (Some Backend.ErrNoBroadcaster, [])
   /\ Backend.FindPeers Peer sb valSet = Panic nil_deref)
  /\ (Backend.broadcaster Peer sb <> None ->
      (Backend.Gossip Peer sb valSet payload).1 = None
      /\ Backend.Broadcast Peer sb valSet payload
         = (None, (Backend.Gossip Peer sb valSet payload).2
                  ++ [Backend.PostToSelf Peer payload])).
Proof.
  unfold Backend.Broadcast, Backend.Gossip, Backend.FindPeers. split.
  - intros ->. done.
  - intros Hb. destruct (Backend.broadcaster Peer sb) as [f|]; [|done].
    by case_match.
Qed.

(** ** The staking account of the genesis wizard *)

(** X20: the balance of the staking contract's genesis account.  On the
    parameter list [configStakingSC] builds (the validators, then the six
    values of [readStakingSCParams]), the entry third from the end is the
    minimum validator stake, and when the deployment succeeds the account
    gets the deployed code and storage and the balance
    (number of validators) * (minimum validator stake); a failed deployment
    is returned as it is. *)
Theorem staking_account_balance
    (deploy : list Wizard.param -> result (list byte * list (Hash * Hash)))
    (validators : list Address) (candidatesOwner admin : Address)
    (epochPeriod maxValidatorSize minValidatorStake minVoteCap : Z) :
  let params :=
    Wizard.stakingSCParams validators
      (Wizard.readStakingSCParams candidatesOwner admin epochPeriod maxValidatorSize
         minValidatorStake minVoteCap) in
  params !! (length params - 3)%nat = Some (Wizard.PBigInt minValidatorStake)
  /\ (forall code storage, deploy params = Ok (code, storage) ->
        Wizard.createGenesisAccountWithStakingSC deploy validators params
        = Ok {| Wizard.Balance := Z.of_nat (length validators) * minValidatorStake;
                Wizard.Code := code; Wizard.Storage := storage |})
  /\ (forall e, deploy params = Err e ->
        Wizard.createGenesisAccountWithStakingSC deploy validators params = Err e).
Proof.
  cbv zeta. split; [reflexivity|]. unfold Wizard.createGenesisAccountWithStakingSC. split.
  - intros code storage ->. reflexivity.
  - intros e ->. reflexivity.
Qed.
